(** * ResumeFilterApp: the resume analysis routine

    A shallow embedding of [ResumeFilter] as written in
    [src/resume_filter.py] (and of the two methods that differ in
    [src/gradioApp.py]), followed by the properties of the specification.

    Conventions of the embedding.
    - A Python [str] is a list of Unicode code points ([list N]).
    - A Python [float] is an exact rational ([Q]); rounding to binary64 is
      outside the model.  An [int] that meets a [float] is injected in [Q].
    - An exception that the source lets escape is a value [Raise _] of
      [result]; an exception that the source catches is handled where the
      [try] is.
    - [re], [str], [datetime] and the document readers are libraries, not
      code of this repository: [re] is a backtracking matcher over the
      fragment of the syntax the patterns of the source use, the readers
      are functions of the file path given by the environment. *)

From Stdlib Require Import QArith Qminmax Lqa.
From stdpp Require Import gmap list strings pretty sorting.

Close Scope Q_scope.
Local Open Scope N_scope.

(** ** Code points *)

Abbreviation pystr := (list N).

(** A string literal of this file as a Python [str]. *)
Definition str (s : string) : pystr :=
  Ascii.N_of_ascii <$> String.list_ascii_of_string s.

(** What Python knows about a code point: the Unicode tables behind
    [str.isspace], [\s], [\d], [\w], [str.lower], [int], [float] and
    [re.IGNORECASE]. *)
Inductive uclass : Type :=
  | UcSpace                                (* white space *)
  | UcDecimal (value : N)                  (* decimal digit, with its value *)
  | UcAlnum (lower : pystr) (fold : N)      (* other letters and numerals *)
  | UcOther (lower : pystr) (fold : N).     (* anything else *)

Definition in_range (lo hi c : N) : bool := (lo <=? c) && (c <=? hi).

(** The ASCII range, as the Python tables have it. *)
Definition ascii_class (c : N) : uclass :=
  if in_range 9 13 c || in_range 28 32 c then UcSpace
  else if in_range 48 57 c then UcDecimal (c - 48)
  else if in_range 65 90 c then UcAlnum [c + 32] (c + 32)
  else if in_range 97 122 c then UcAlnum [c] c
  else UcOther [c] c.

Definition hyphen : N := 45.
Definition en_dash : N := 8211.
Definition em_dash : N := 8212.
Definition newline : N := 10.
Definition space : N := 32.
Definition underscore : N := 95.

(** A table without any code point above the ASCII range, for the worked
    examples: they are ASCII texts and evaluate alike under every table. *)
Definition ascii_only : N → uclass := λ c, UcOther [c] c.

Section Unicode.

(** The table for the code points above the ASCII range.  It is the one
    part of Python the embedding leaves open: every result below holds
    for any table. *)
Variable unicode : N → uclass.

Definition classify (c : N) : uclass :=
  if c <? 128 then ascii_class c
  else if (c =? en_dash) || (c =? em_dash) then UcOther [c] c
  else unicode c.

Definition is_space (c : N) : bool :=
  match classify c with UcSpace => true | _ => false end.

Definition digit_value (c : N) : option N :=
  match classify c with UcDecimal v => Some v | _ => None end.

Definition is_digit (c : N) : bool :=
  match classify c with UcDecimal _ => true | _ => false end.

(** [\w]: alphanumeric or underscore. *)
Definition is_word (c : N) : bool :=
  match classify c with
  | UcDecimal _ | UcAlnum _ _ => true
  | _ => c =? underscore
  end.

Definition lower_cp (c : N) : pystr :=
  match classify c with
  | UcAlnum l _ | UcOther l _ => l
  | _ => [c]
  end.

(** The lower-case form [re.IGNORECASE] compares. *)
Definition fold_cp (c : N) : N :=
  match classify c with
  | UcAlnum _ f | UcOther _ f => f
  | _ => c
  end.

(** ** [str] methods *)

(** [s.lower()] (the context rule for a final sigma is not modelled). *)
Definition py_lower (s : pystr) : pystr := s ≫= lower_cp.

Fixpoint lstrip (s : pystr) : pystr :=
  match s with
  | c :: s' => if is_space c then lstrip s' else s
  | [] => []
  end.

Definition rstrip (s : pystr) : pystr := reverse (lstrip (reverse s)).

(** [s.strip()] *)
Definition py_strip (s : pystr) : pystr := rstrip (lstrip s).

(** [s.replace('\n', ' ')] *)
Definition replace_newlines (s : pystr) : pystr :=
  (λ c, if c =? newline then space else c) <$> s.

(** [sep.join(parts)] *)
Fixpoint py_join (sep : pystr) (parts : list pystr) : pystr :=
  match parts with
  | [] => []
  | [p] => p
  | p :: ps => p ++ sep ++ py_join sep ps
  end.

Definition text_eqb (a b : pystr) : bool := bool_decide (a = b).

(** [s.endswith(suf)] *)
Definition endswith (s suf : pystr) : bool :=
  text_eqb (drop (length s - length suf)%nat s) suf.

(** [s[:n]] and [s[-n:]] for [n > 0]. *)
Definition slice_to (n : nat) (s : pystr) : pystr := take n s.
Definition slice_last (n : nat) (s : pystr) : pystr := drop (length s - n)%nat s.


(** ** [re]: patterns

    The fragment of the pattern syntax the source uses.  Every repetition
    of the source is over one character ([\d+], [\s*], [s?], [.*],
    [\d{4}]), so [Rep] repeats an [atom]. *)

Inductive cset_item : Type :=
  | Chr (c : N)                 (* a character *)
  | Rng (lo hi : N)             (* lo-hi *)
  | Digit                       (* \d *)
  | White                       (* \s *)
  | WordChar.                   (* \w *)

Inductive atom : Type :=
  | AChr (c : N)                (* a literal character *)
  | ASet (items : list cset_item)  (* [...] or a class escape *)
  | ADot.                       (* . *)

Inductive regex : Type :=
  | Eps
  | One (a : atom)
  | Rep (a : atom) (lo : nat) (hi : option nat)   (* greedy a{lo,hi} *)
  | Seq (r1 r2 : regex)
  | Alt (r1 r2 : regex)
  | Grp (n : nat) (r : regex)   (* the n-th capturing group *)
  | Bnd.                        (* \b *)

Definition star (a : atom) : regex := Rep a 0 None.
Definition plus (a : atom) : regex := Rep a 1 None.
Definition opt (a : atom) : regex := Rep a 0 (Some 1%nat).
Definition times (n : nat) (a : atom) : regex := Rep a n (Some n).

(** A literal string; [re.escape] followed by compilation gives this for
    any string. *)
Definition lit_text (s : pystr) : regex := foldr (λ c r, Seq (One (AChr c)) r) Eps s.
Definition lit (s : string) : regex := lit_text (str s).

Definition seqs (rs : list regex) : regex := foldr Seq Eps rs.

Fixpoint alts (r : regex) (rs : list regex) : regex :=
  match rs with
  | [] => r
  | r' :: rs' => Alt r (alts r' rs')
  end.

Definition chr_of (s : string) : N := default 0 (head (str s)).

Definition digit : atom := ASet [Digit].
Definition white : atom := ASet [White].

(** ** [re]: matching *)

Definition chr_matches (icase : bool) (p c : N) : bool :=
  if icase then fold_cp c =? fold_cp p else c =? p.

Definition item_matches (icase : bool) (it : cset_item) (c : N) : bool :=
  match it with
  | Chr p => chr_matches icase p c
  | Rng lo hi => in_range lo hi c || (icase && in_range lo hi (fold_cp c))
  | Digit => is_digit c
  | White => is_space c
  | WordChar => is_word c
  end.

Definition atom_matches (icase : bool) (a : atom) (c : N) : bool :=
  match a with
  | AChr p => chr_matches icase p c
  | ASet items => existsb (λ it, item_matches icase it c) items
  | ADot => negb (c =? newline)
  end.

(** The matcher's position: the character before it, the text after it,
    and the groups closed so far (latest first). *)
Record mstate : Type := MState {
  ms_prev : option N;
  ms_rest : pystr;
  ms_groups : list (nat * pystr)
}.

Definition word_at (c : option N) : bool :=
  match c with Some c => is_word c | None => false end.

(** [\b]: exactly one side is a word character. *)
Definition at_boundary (prev : option N) (rest : pystr) : bool :=
  xorb (word_at prev) (word_at (head rest)).

(** A greedy repetition: the results with more characters come first. *)
Fixpoint rep_greedy (p : N → bool) (lo : nat) (hi : option nat)
    (prev : option N) (s : pystr) : list (option N * pystr) :=
  let stop := match lo with O => [(prev, s)] | S _ => [] end in
  match s with
  | c :: s' =>
      if p c && negb (bool_decide (hi = Some O))
      then rep_greedy p (pred lo) (pred <$> hi) (Some c) s' ++ stop
      else stop
  | [] => stop
  end.

(** All the ways [r] matches at a position, in the order the backtracking
    matcher of [re] finds them. *)
Fixpoint rmatch (icase : bool) (r : regex) (st : mstate) : list mstate :=
  match r with
  | Eps => [st]
  | One a =>
      match ms_rest st with
      | c :: s' =>
          if atom_matches icase a c then [MState (Some c) s' (ms_groups st)]
          else []
      | [] => []
      end
  | Rep a lo hi =>
      (λ ps, MState ps.1 ps.2 (ms_groups st)) <$>
        rep_greedy (atom_matches icase a) lo hi (ms_prev st) (ms_rest st)
  | Seq r1 r2 => rmatch icase r1 st ≫= rmatch icase r2
  | Alt r1 r2 => rmatch icase r1 st ++ rmatch icase r2 st
  | Grp n r =>
      (λ st', MState (ms_prev st') (ms_rest st')
                ((n, take (length (ms_rest st) - length (ms_rest st'))%nat
                       (ms_rest st)) :: ms_groups st')) <$>
        rmatch icase r st
  | Bnd => if at_boundary (ms_prev st) (ms_rest st) then [st] else []
  end.

(** A match object: [m.start()], [m.end()], [m.group(0)] and the groups. *)
Record rematch : Type := ReMatch {
  m_start : nat;
  m_end : nat;
  m_group0 : pystr;
  m_groups : list (nat * pystr)
}.

Fixpoint lookup_group (n : nat) (gs : list (nat * pystr)) : option pystr :=
  match gs with
  | (k, w) :: gs' => if (k =? n)%nat then Some w else lookup_group n gs'
  | [] => None
  end.

(** [m.group(n)] *)
Definition m_group (n : nat) (m : rematch) : option pystr :=
  lookup_group n (m_groups m).

(** The first match that starts at position [i]; after an empty match the
    scanner asks for a match that advances. *)
Definition match_here (icase : bool) (r : regex) (must_advance : bool)
    (i : nat) (prev : option N) (s : pystr) : option rematch :=
  (λ st, let n := (length s - length (ms_rest st))%nat in
         ReMatch i (i + n) (take n s) (ms_groups st)) <$>
    head (filter (λ st, negb must_advance ∨
                         (length (ms_rest st) < length s)%nat)
            (rmatch icase r (MState prev s []))).

(** The scanner behind [re.finditer]: leftmost matches that do not
    overlap.  [skip] counts the characters of the last match still to
    pass. *)
Fixpoint finditer_from (icase : bool) (r : regex) (i : nat) (prev : option N)
    (s : pystr) (skip : nat) : list rematch :=
  let next k :=
    match s with
    | c :: s' => finditer_from icase r (S i) (Some c) s' k
    | [] => []
    end in
  match skip with
  | S k => next k
  | O =>
      match match_here icase r false i prev s with
      | None => next O
      | Some m =>
          if (m_end m =? i)%nat then
            m :: match match_here icase r true i prev s with
                 | Some m' => m' :: next (m_end m' - i - 1)%nat
                 | None => next O
                 end
          else m :: next (m_end m - i - 1)%nat
      end
  end.

(** [re.finditer(pattern, text)] *)
Definition finditer (icase : bool) (r : regex) (s : pystr) : list rematch :=
  finditer_from icase r 0 None s 0.

(** [re.findall(pattern, text)] for a pattern without capturing groups. *)
Definition findall (icase : bool) (r : regex) (s : pystr) : list pystr :=
  m_group0 <$> finditer icase r s.

Fixpoint split_at (s : pystr) (last : nat) (ms : list rematch) : list pystr :=
  match ms with
  | [] => [drop last s]
  | m :: ms' => take (m_start m - last) (drop last s) :: split_at s (m_end m) ms'
  end.

(** [re.split(pattern, text)] for a pattern without capturing groups. *)
Definition re_split (icase : bool) (r : regex) (s : pystr) : list pystr :=
  split_at s 0 (finditer icase r s).


(** ** Numbers *)

Definition Qltb (a b : Q) : bool := negb (Qle_bool b a).

(** [min(a, b)]: the first argument unless the second is smaller. *)
Definition py_min (a b : Q) : Q := if Qltb b a then b else a.

Inductive exn : Type := ZeroDivisionError.

(** The outcome of code that may let an exception escape. *)
Inductive result (A : Type) : Type :=
  | Return (a : A)
  | Raise (e : exn).
Global Arguments Return {A} a.
Global Arguments Raise {A} e.

Global Instance result_ret : MRet result := λ A a, Return a.
Global Instance result_bind : MBind result := λ A B f r,
  match r with
  | Return a => f a
  | Raise e => Raise e
  end.

(** [a / b] on floats. *)
Definition py_div (a b : Q) : result Q :=
  if Qeq_bool b 0 then Raise ZeroDivisionError else Return (a / b)%Q.

Fixpoint digits_value (acc : N) (s : pystr) : option N :=
  match s with
  | [] => Some acc
  | c :: s' => v ← digit_value c; digits_value (acc * 10 + v) s'
  end.

(** [int(s)] on a string of digits; [None] is [ValueError]. *)
Definition py_int (s : pystr) : option N :=
  match s with
  | [] => None
  | _ => digits_value 0 s
  end.

Definition full_stop : N := 46.

Fixpoint break_at (c : N) (s : pystr) : pystr * option pystr :=
  match s with
  | [] => ([], None)
  | x :: s' =>
      if x =? c then ([], Some s')
      else let '(a, b) := break_at c s' in (x :: a, b)
  end.

(** [float(s)] on the numerals the capturing groups of the source
    produce, digits with an optional point; [None] is [ValueError].
    (Signs, exponents and the like never reach it from the source.) *)
Definition py_float (s : pystr) : option Q :=
  let '(ip, fp) := break_at full_stop s in
  let fp := default [] fp in
  match ip ++ fp with
  | [] => None
  | ds =>
      n ← digits_value 0 ds;
      Some (Z.of_N n # Z.to_pos (10 ^ Z.of_nat (length fp)))%Q
  end.

(** ** [datetime] *)

Definition month_names : list string :=
  ["Jan"; "Feb"; "Mar"; "Apr"; "May"; "Jun";
   "Jul"; "Aug"; "Sep"; "Oct"; "Nov"; "Dec"]%string.

(** The months of a pattern, [jan|feb|...|dec]. *)
Definition months_re : regex :=
  alts (lit "jan")
    [lit "feb"; lit "mar"; lit "apr"; lit "may"; lit "jun"; lit "jul";
     lit "aug"; lit "sep"; lit "oct"; lit "nov"; lit "dec"].

(** The pattern [_strptime] compiles for ["%b %Y"], with
    [re.IGNORECASE]. *)
Definition strptime_re : regex :=
  seqs [Grp 1 months_re; plus white; Grp 2 (seqs [One digit; One digit;
                                        One digit; One digit])].

Fixpoint index_of (x : pystr) (l : list pystr) : option nat :=
  match l with
  | [] => None
  | y :: l' => if text_eqb x y then Some O else S <$> index_of x l'
  end.

(** A [datetime] on the first of a month at midnight. *)
Record month_start : Type := MonthStart { ms_year : N; ms_month : nat }.

(** [datetime.strptime(s, "%b %Y")]; [None] is [ValueError]. *)
Definition strptime (s : pystr) : option month_start :=
  st ← head (rmatch true strptime_re (MState None s []));
  match ms_rest st with
  | [] =>
      b ← lookup_group 1 (ms_groups st);
      y ← lookup_group 2 (ms_groups st);
      month ← index_of (py_lower b) ((λ m, py_lower (str m)) <$> month_names);
      year ← py_int y;
      if (1 <=? year) && (year <=? 9999)
      then Some (MonthStart year (S month)) else None
  | _ => None
  end.

(** [datetime.now().strftime("%b %Y")] for a clock that reads [now]. *)
Definition strftime (now : month_start) : pystr :=
  str (default ""%string (month_names !! pred (ms_month now)))
    ++ [space] ++ str (pretty (ms_year now)).

Definition is_leap (y : Z) : bool :=
  ((y mod 4 =? 0) && (negb (y mod 100 =? 0) || (y mod 400 =? 0)))%Z.

Definition days_before_year (y : Z) : Z :=
  (let y := y - 1 in y * 365 + y / 4 - y / 100 + y / 400)%Z.

Definition days_before_month (y : Z) (m : nat) : Z :=
  (default 0 ([0; 31; 59; 90; 120; 151; 181; 212; 243; 273; 304; 334] !! pred m)
   + (if (2 <? m)%nat && is_leap y then 1 else 0))%Z.

(** [date.toordinal()] *)
Definition toordinal (t : month_start) : Z :=
  (days_before_year (Z.of_N (ms_year t))
   + days_before_month (Z.of_N (ms_year t)) (ms_month t) + 1)%Z.

(** [(end - start).days] *)
Definition days_between (start end_ : month_start) : Z :=
  (toordinal end_ - toordinal start)%Z.


(** ** The environment

    What the source reads from outside: the directory listing, the
    document readers and the clock.  A reader either returns or raises,
    and an exception carries its message. *)

Inductive outcome (A : Type) : Type :=
  | Ok (a : A)
  | Failed (msg : pystr).
Global Arguments Ok {A} a.
Global Arguments Failed {A} msg.

Record world : Type := World {
  (* os.listdir(resume_dir) *)
  listdir : pystr → list pystr;
  (* [page.extract_text() for page in pdfplumber.open(path).pages] *)
  pdf_pages : pystr → outcome (list (option pystr));
  (* [pytesseract.image_to_string(img) for img in convert_from_path(path)] *)
  ocr_pages : pystr → outcome (list pystr);
  (* Document(path): the paragraphs, and the cells of the rows of the tables *)
  docx_document : pystr → outcome (list pystr * list (list (list pystr)))
}.

(** ** [ResumeFilter] ([src/resume_filter.py]) *)

Record ResumeFilter : Type := {
  job_description : pystr;
  mandatory : list pystr;
  optional : list pystr;
  min_experience : Q
}.

(** [ResumeFilter.__init__] *)
Definition init (job_description : pystr) (mandatory_keywords optional_keywords : list pystr)
    (min_experience : Q) : ResumeFilter :=
  {| job_description := job_description;
     mandatory := py_lower <$> mandatory_keywords;
     optional := py_lower <$> optional_keywords;
     min_experience := min_experience |}.

(** [ResumeFilter.extract_text]: the [try] leaves [text] as it was when
    a reader raises. *)
Definition extract_text (w : world) (filepath : pystr) : pystr :=
  let text :=
    if endswith (py_lower filepath) (str ".pdf") then
      match pdf_pages w filepath with
      | Ok pages =>
          let text := py_join [newline] (default [] <$> pages) in
          if bool_decide (py_strip text = []) then
            match ocr_pages w filepath with
            | Ok images => py_join [newline] images
            | Failed _ => text
            end
          else text
      | Failed _ => []
      end
    else if endswith (py_lower filepath) (str ".docx")
            || endswith (py_lower filepath) (str ".doc") then
      match docx_document w filepath with
      | Ok (paragraphs, tables) =>
          py_join [newline] (paragraphs ++ concat (concat tables))
      | Failed _ => []
      end
    else [] in
  py_lower text.

(** NUMBER: [\d+\.?\d*], the digits, an optional point, more digits. *)
Definition number_re : regex :=
  seqs [plus digit; opt (AChr full_stop); star digit].

Definition years_re : regex :=
  Alt (Seq (lit "year") (opt (AChr (chr_of "s"))))
      (Seq (lit "yr") (opt (AChr (chr_of "s")))).

Definition exp_re : regex := Alt (lit "experience") (lit "exp").

(** The [patterns] of [extract_experience], in the order of the list. *)
Definition patterns : list regex :=
  [ (* (NUMBER)\s*(years?|yrs?)\s*(experience|exp) *)
    seqs [Grp 1 number_re; star white; Grp 2 years_re; star white; Grp 3 exp_re];
    (* experience\s*:\s*(NUMBER)\s*(years?|yrs?) *)
    seqs [lit "experience"; star white; One (AChr (chr_of ":")); star white;
          Grp 1 number_re; star white; Grp 2 years_re];
    (* (\d+)\+?\s*(years?|yrs?)\s*in\s*.*(experience|exp) *)
    seqs [Grp 1 (plus digit); opt (AChr (chr_of "+")); star white; Grp 2 years_re;
          star white; lit "in"; star white; star ADot; Grp 3 exp_re];
    (* (NUMBER)\s*(years?|yrs?)\s*professional *)
    seqs [Grp 1 number_re; star white; Grp 2 years_re; star white; lit "professional"];
    (* (\d+)\s*(years?|yrs?)\s*relevant *)
    seqs [Grp 1 (plus digit); star white; Grp 2 years_re; star white; lit "relevant"] ].

Definition dash : atom := ASet [Chr hyphen; Chr en_dash; Chr em_dash].
Definition a_z : atom := ASet [Rng (chr_of "a") (chr_of "z")].

(** One side of a range: "(?:jan|...|dec)[a-z]*\s*\d{4}" *)
Definition month_year_re : regex :=
  seqs [months_re; star a_z; star white; times 4 digit].

(** [date_pattern]; the alternation binds last, so its second branch is
    the word alone. *)
Definition date_pattern : regex :=
  Alt (seqs [month_year_re; star white; One dash; star white; month_year_re])
      (seqs [Bnd; lit "present"; Bnd]).

(** The pattern of [re.split]: "\s*[-...]\s*", the set holding the hyphen,
    the en dash and the em dash. *)
Definition split_pattern : regex := seqs [star white; One dash; star white].

(** The inner loop over the matches of one pattern: the first match whose
    group converts is returned. *)
Fixpoint first_float (matches : list rematch) : option Q :=
  match matches with
  | [] => None
  | m :: matches' =>
      match m_group 1 m ≫= py_float with
      | Some q => Some q
      | None => first_float matches'
      end
  end.

(** The loop over [patterns]. *)
Fixpoint explicit_experience (ps : list regex) (text : pystr) : option Q :=
  match ps with
  | [] => None
  | pattern :: ps' =>
      match first_float (finditer false pattern text) with
      | Some q => Some q
      | None => explicit_experience ps' text
      end
  end.

(** The body of the loop over [date_ranges]; [None] stands for [continue],
    also when it comes from the [except]. *)
Definition range_duration (now : month_start) (date_range : pystr) : option Q :=
  match re_split false split_pattern date_range with
  | [date0; date1] =>
      let start_date := py_strip date0 in
      let end_date := py_strip date1 in
      let end_date :=
        if text_eqb (py_lower end_date) (str "present")
        then strftime now else end_date in
      start ← strptime (slice_to 3 start_date ++ [space] ++ slice_last 4 start_date);
      end_ ← strptime (slice_to 3 end_date ++ [space] ++ slice_last 4 end_date);
      Some (inject_Z (days_between start end_) / 365.25)%Q
  | _ => None
  end.

(** One turn of the loop, on [(total_experience, valid_ranges)]. *)
Definition date_step (now : month_start) (acc : Q * nat) (date_range : pystr)
    : Q * nat :=
  match range_duration now date_range with
  | Some duration =>
      if Qltb 0 duration then ((acc.1 + duration)%Q, S acc.2) else acc
  | None => acc
  end.

(** [ResumeFilter.extract_experience] *)
Definition extract_experience (now : month_start) (text : pystr) : option Q :=
  match explicit_experience patterns text with
  | Some q => Some q
  | None =>
      let date_ranges := findall true date_pattern text in
      let '(total_experience, valid_ranges) :=
        foldl (date_step now) (0%Q, O) date_ranges in
      if (0 <? valid_ranges)%nat then Some total_experience else None
  end.


(** The pattern of a keyword: [\b], the keyword escaped, [\b]. *)
Definition keyword_re (kw : pystr) : regex := Seq Bnd (Seq (lit_text kw) Bnd).

(** The snippet around a match: fifty characters on either side. *)
Definition context_of (text : pystr) (m : rematch) : pystr :=
  let start := Nat.max 0 (m_start m - 50) in
  let end_ := Nat.min (length text) (m_end m + 50) in
  py_strip (replace_newlines (take (end_ - start) (drop start text))).

Record analysis : Type := Analysis {
  missing_mandatory : list pystr;
  keyword_counts : gmap pystr nat;
  found_sections : gmap pystr (list pystr);
  experience : option Q;
  score : Q
}.

(** One turn of the loop over [self.mandatory], on
    [(missing_mandatory, keyword_counts, found_sections)]. *)
Definition mandatory_step (text : pystr)
    (acc : list pystr * gmap pystr nat * gmap pystr (list pystr)) (kw : pystr)
    : list pystr * gmap pystr nat * gmap pystr (list pystr) :=
  let '(missing, counts, found) := acc in
  let matches := finditer false (keyword_re kw) text in
  let count := length matches in
  let found :=
    match matches with
    | [] => found
    | _ => <[kw := default [] (found !! kw) ++ (context_of text <$> matches)]> found
    end in
  (if (count =? 0)%nat then missing ++ [kw] else missing,
   <[kw := count]> counts, found).

(** One turn of the loop over [self.optional]. *)
Definition optional_step (text : pystr) (counts : gmap pystr nat) (kw : pystr)
    : gmap pystr nat :=
  <[kw := length (findall false (keyword_re kw) text)]> counts.

(** [keyword_counts[kw]] on a [defaultdict(int)] *)
Definition count_of (counts : gmap pystr nat) (kw : pystr) : nat :=
  default O (counts !! kw).

Definition sum_Z (l : list Z) : Z := foldr Z.add 0%Z l.

(** The experience bonus of [analyze_resume]: [exp_bonus = 0], replaced
    when the experience is known and reaches the minimum. *)
Definition exp_bonus (self : ResumeFilter) (experience : option Q)
    (mandatory_score optional_score : Z) : result Q :=
  match experience with
  | Some e =>
      if Qle_bool (min_experience self) e then
        ratio ← py_div e (min_experience self);
        mret (py_min ratio 1.2
              * inject_Z (mandatory_score + optional_score) * 0.2)%Q
      else mret 0%Q
  | None => mret 0%Q
  end.

(** [ResumeFilter.analyze_resume]; the clock is the one
    [extract_experience] reads. *)
Definition analyze_resume (self : ResumeFilter) (now : month_start) (text : pystr)
    : result analysis :=
  let '(missing_mandatory, keyword_counts, found_sections) :=
    foldl (mandatory_step text) ([], ∅, ∅) (mandatory self) in
  let keyword_counts := foldl (optional_step text) keyword_counts (optional self) in
  let experience := extract_experience now text in
  let mandatory_score :=
    sum_Z ((λ kw, Z.of_nat (count_of keyword_counts kw) * 3)%Z <$> mandatory self) in
  let optional_score :=
    sum_Z ((λ kw, Z.of_nat (count_of keyword_counts kw)) <$> optional self) in
  exp_bonus ← exp_bonus self experience mandatory_score optional_score;
  let total_score :=
    (inject_Z mandatory_score + inject_Z optional_score + exp_bonus)%Q in
  mret {| missing_mandatory := missing_mandatory;
          keyword_counts := keyword_counts;
          found_sections := found_sections;
          experience := experience;
          score := total_score |}.

(** An entry of the list [process_resumes] returns. *)
Record candidate : Type := Candidate {
  c_filename : pystr;
  c_score : Q;
  c_experience : option Q;
  c_experience_met : bool;
  c_missing_mandatory : list pystr;
  c_keyword_counts : gmap pystr nat;
  c_found_sections : gmap pystr (list pystr)
}.

(** The key of the sort: [(-x['score'], -x['experience_met'])]. *)
Definition sort_key (x : candidate) : Q * Z :=
  ((- c_score x)%Q, (- (if c_experience_met x then 1 else 0))%Z).

(** [a < b] on these tuples: the first components that differ decide. *)
Definition key_lt (a b : Q * Z) : bool :=
  if Qeq_bool a.1 b.1 then (a.2 <? b.2)%Z else Qltb a.1 b.1.

(** [list.sort(key=...)] is a stable sort that compares with [<] alone;
    it is modelled by the insertion sort with these two properties. *)
Fixpoint insert_by {A K : Type} (key : A → K) (lt : K → K → bool)
    (x : A) (l : list A) : list A :=
  match l with
  | [] => [x]
  | y :: l' =>
      if lt (key y) (key x) then y :: insert_by key lt x l' else x :: l
  end.

Definition sort_by {A K : Type} (key : A → K) (lt : K → K → bool)
    (l : list A) : list A :=
  foldr (insert_by key lt) [] l.

(** The ranking step: [results.sort(key=lambda x: ...)]. *)
Definition rank (results : list candidate) : list candidate :=
  sort_by sort_key key_lt results.

Definition supported (name : pystr) : bool :=
  endswith (py_lower name) (str ".pdf")
  || endswith (py_lower name) (str ".docx")
  || endswith (py_lower name) (str ".doc").

Definition solidus : N := 47.

(** [os.path.join(a, b)] on a POSIX system. *)
Definition path_join (a b : pystr) : pystr :=
  if bool_decide (head b = Some solidus) then b
  else if bool_decide (a = []) || bool_decide (last a = Some solidus) then a ++ b
  else a ++ [solidus] ++ b.

Definition experience_met (self : ResumeFilter) (a : analysis) : bool :=
  match experience a with
  | Some e => Qle_bool (min_experience self) e
  | None => false
  end.

Definition candidate_of (self : ResumeFilter) (filename : pystr) (a : analysis)
    : candidate :=
  {| c_filename := filename;
     c_score := score a;
     c_experience := experience a;
     c_experience_met := experience_met self a;
     c_missing_mandatory := missing_mandatory a;
     c_keyword_counts := keyword_counts a;
     c_found_sections := found_sections a |}.

(** The loop of [process_resumes] over the listing, on [results]. *)
Fixpoint collect (self : ResumeFilter) (w : world) (now : month_start)
    (resume_dir : pystr) (filenames : list pystr) (results : list candidate)
    : result (list candidate) :=
  match filenames with
  | [] => mret results
  | filename :: filenames' =>
      if negb (supported filename) then
        collect self w now resume_dir filenames' results
      else
        let filepath := path_join resume_dir filename in
        let text := extract_text w filepath in
        if bool_decide (py_strip text = []) then
          collect self w now resume_dir filenames' results
        else
          a ← analyze_resume self now text;
          collect self w now resume_dir filenames'
            (match missing_mandatory a with
             | [] => results ++ [candidate_of self filename a]
             | _ => results
             end)
  end.

(** [ResumeFilter.process_resumes] *)
Definition process_resumes (self : ResumeFilter) (w : world) (now : month_start)
    (resume_dir : pystr) : result (list candidate) :=
  results ← collect self w now resume_dir (listdir w resume_dir) [];
  mret (rank results).


(** ** [ResumeFilter] ([src/gradioApp.py])

    [__init__], [extract_experience] and [analyze_resume] are those of
    [src/resume_filter.py] line for line; these two methods differ. *)

(** [ResumeFilter.extract_text]: the [except] returns the message, as it
    is, in place of the text. *)
Definition gradio_extract_text (w : world) (filepath : pystr) : pystr :=
  let error e := str "Error processing " ++ filepath ++ str ": " ++ e in
  if endswith (py_lower filepath) (str ".pdf") then
    match pdf_pages w filepath with
    | Ok pages =>
        let text := py_join [newline] (default [] <$> pages) in
        if bool_decide (py_strip text = []) then
          match ocr_pages w filepath with
          | Ok images => py_lower (py_join [newline] images)
          | Failed e => error e
          end
        else py_lower text
    | Failed e => error e
    end
  else if endswith (py_lower filepath) (str ".docx")
          || endswith (py_lower filepath) (str ".doc") then
    match docx_document w filepath with
    | Ok (paragraphs, tables) =>
        py_lower (py_join [newline] (paragraphs ++ concat (concat tables)))
    | Failed e => error e
    end
  else py_lower [].

(** [os.path.basename(p)]: what follows the last solidus. *)
Fixpoint basename_from (acc p : pystr) : pystr :=
  match p with
  | [] => acc
  | c :: p' => if c =? solidus then basename_from [] p' else basename_from (acc ++ [c]) p'
  end.

Definition basename (p : pystr) : pystr := basename_from [] p.

(** The loop of [process_resumes] over [resume_file_paths]; [text] is
    always a [str], so the test on its type never skips. *)
Fixpoint gradio_collect (self : ResumeFilter) (w : world) (now : month_start)
    (resume_file_paths : list pystr) (results : list candidate)
    : result (list candidate) :=
  match resume_file_paths with
  | [] => mret results
  | filepath :: paths' =>
      if negb (supported filepath) then gradio_collect self w now paths' results
      else
        let text := gradio_extract_text w filepath in
        if bool_decide (py_strip text = []) then
          gradio_collect self w now paths' results
        else
          a ← analyze_resume self now text;
          gradio_collect self w now paths'
            (match missing_mandatory a with
             | [] => results ++ [candidate_of self (basename filepath) a]
             | _ => results
             end)
  end.

(** [ResumeFilter.process_resumes] *)
Definition gradio_process_resumes (self : ResumeFilter) (w : world)
    (now : month_start) (resume_file_paths : list pystr)
    : result (list candidate) :=
  results ← gradio_collect self w now resume_file_paths [];
  mret (rank results).

(** ** The keyword fields of the two front ends *)

Definition comma : N := 44.

(** [s.split(sep)] for a separator of one character: every piece, the
    empty ones too. *)
Fixpoint split_on (sep : N) (s : pystr) : list pystr :=
  match s with
  | [] => [[]]
  | x :: s' =>
      if x =? sep then [] :: split_on sep s'
      else match split_on sep s' with
           | piece :: pieces => (x :: piece) :: pieces
           | [] => [[x]]
           end
  end.

(** [upload] of [src/app.py]:
    [request.form['mandatory_keywords'].split(',')]. *)
Definition flask_keywords (field : pystr) : list pystr := split_on comma field.

(** [process_resume_filter] of [src/gradioApp.py]:
    [[kw.strip() for kw in field.split(',') if kw.strip()]]. *)
Definition gradio_keywords (field : pystr) : list pystr :=
  List.filter (λ kw, negb (text_eqb kw []))
    (py_strip <$> split_on comma field).

(** * Definitions of the specification

    What the statements below compare the code with. *)

(** [derives r w g g'] reads a pattern as a description of the text [w]
    it consumes and of the groups it closes, without the order of the
    search. *)
Fixpoint derives (icase : bool) (r : regex) (w : pystr)
    (g g' : list (nat * pystr)) : Prop :=
  match r with
  | Eps => w = [] ∧ g' = g
  | One a => ∃ c, w = [c] ∧ atom_matches icase a c = true ∧ g' = g
  | Rep a lo hi =>
      Forall (λ c, atom_matches icase a c = true) w
      ∧ (lo ≤ length w)%nat
      ∧ (∀ n, hi = Some n → (length w ≤ n)%nat)
      ∧ g' = g
  | Seq r1 r2 =>
      ∃ w1 w2 g1, w = w1 ++ w2 ∧ derives icase r1 w1 g g1
                  ∧ derives icase r2 w2 g1 g'
  | Alt r1 r2 => derives icase r1 w g g' ∨ derives icase r2 w g g'
  | Grp n r => ∃ g1, derives icase r w g g1 ∧ g' = (n, w) :: g1
  | Bnd => w = [] ∧ g' = g
  end.

(** In a sorted list [x] may stand before [y]: [y] is not smaller. *)
Definition not_after {A K : Type} (key : A → K) (lt : K → K → bool)
    (x y : A) : Prop :=
  lt (key y) (key x) = false.

(** [a] is ranked no lower than [b]. *)
Definition ranked_before (a b : candidate) : Prop :=
  (c_score b < c_score a)%Q
  ∨ ((c_score a == c_score b)%Q
     ∧ (c_experience_met b = true → c_experience_met a = true)).

(** [y] ties with [x] in both keys. *)
Definition same_rank (x y : candidate) : bool :=
  Qeq_bool (c_score y) (c_score x)
  && bool_decide (c_experience_met y = c_experience_met x).

(** The number of matches of a keyword in a text, as [analyze_resume]
    counts them. *)
Definition occurrences (text kw : pystr) : nat :=
  length (finditer false (keyword_re kw) text).

(** The dictionary of counts: every keyword of the two lists with its
    number of matches. *)
Definition final_counts (self : ResumeFilter) (text : pystr) : gmap pystr nat :=
  foldl (λ m kw, <[kw := occurrences text kw]> m)
    (foldl (λ m kw, <[kw := occurrences text kw]> m) ∅ (mandatory self))
    (optional self).

(** The scores as the specification words them. *)
Definition mandatory_score_spec (self : ResumeFilter) (text : pystr) : Z :=
  sum_Z ((λ kw, Z.of_nat (occurrences text kw) * 3)%Z <$> mandatory self).

Definition optional_score_spec (self : ResumeFilter) (text : pystr) : Z :=
  sum_Z ((λ kw, Z.of_nat (occurrences text kw)) <$> optional self).

(** The bonus as the specification words it: nothing when the experience
    is unknown or below the minimum, else the capped ratio times the sum
    of the two scores times 0.2. *)
Definition experience_bonus_spec (experience : option Q) (minimum : Q)
    (mandatory_score optional_score : Z) : Q :=
  match experience with
  | None => 0
  | Some e =>
      if Qlt_le_dec e minimum then 0
      else Qmin (e / minimum) 1.2
           * (inject_Z mandatory_score + inject_Z optional_score) * 0.2
  end%Q.

(** The [try] of [extract_text] raises: a reader that is called fails. *)
Definition extraction_raises (w : world) (filepath : pystr) : Prop :=
  if endswith (py_lower filepath) (str ".pdf") then
    match pdf_pages w filepath with
    | Failed _ => True
    | Ok pages =>
        py_strip (py_join [newline] (default [] <$> pages)) = []
        ∧ ∃ msg, ocr_pages w filepath = Failed msg
    end
  else if endswith (py_lower filepath) (str ".docx")
          || endswith (py_lower filepath) (str ".doc") then
    ∃ msg, docx_document w filepath = Failed msg
  else False.

(** What puts a file of the listing in the pool. *)
Definition admitted (self : ResumeFilter) (w : world) (now : month_start)
    (resume_dir : pystr) (c : candidate) : Prop :=
  let text := extract_text w (path_join resume_dir (c_filename c)) in
  supported (c_filename c) = true
  ∧ py_strip text ≠ []
  ∧ ∃ a, analyze_resume self now text = Return a
         ∧ missing_mandatory a = []
         ∧ c = candidate_of self (c_filename c) a.

(** Two small environments for the worked examples: a directory with one
    Word document of one paragraph, and one with a PDF that the reader
    rejects. *)
Definition one_docx (name paragraph : pystr) : world :=
  {| listdir := λ _, [name];
     pdf_pages := λ _, Failed [];
     ocr_pages := λ _, Failed [];
     docx_document := λ _, Ok ([paragraph], []) |}.

(** A directory of DOCX files, each with one paragraph; the readers find
    a file by the last component of its path. *)
Definition docx_folder (files : list (pystr * pystr)) : world :=
  {| listdir := λ _, files.*1;
     pdf_pages := λ _, Failed [];
     ocr_pages := λ _, Failed [];
     docx_document := λ path,
       match List.find (λ f, text_eqb (basename path) f.1) files with
       | Some f => Ok ([f.2], [])
       | None => Failed (str "Package not found")
       end |}.

Definition broken_pdf (name msg : pystr) : world :=
  {| listdir := λ _, [name];
     pdf_pages := λ _, Failed msg;
     ocr_pages := λ _, Failed msg;
     docx_document := λ _, Failed msg |}.

(** The character before the position reached after reading [kw]. *)
Definition last_before (prev : option N) (kw : pystr) : option N :=
  match last kw with
  | Some c => Some c
  | None => prev
  end.

(** The keyword, taken as a literal string, stands at the head of [s]
    between two word boundaries. *)
Definition whole_word_here (kw : pystr) (prev : option N) (s : pystr) : bool :=
  at_boundary prev s
  && text_eqb (take (length kw) s) kw
  && at_boundary (last_before prev kw) (drop (length kw) s).

(** The whole-word occurrences of a literal keyword, read from left to
    right without overlap; [skip] counts the characters of the last
    occurrence still to pass. *)
Fixpoint whole_word_count_from (kw : pystr) (prev : option N) (s : pystr)
    (skip : nat) : nat :=
  let next k :=
    match s with
    | c :: s' => whole_word_count_from kw (Some c) s' k
    | [] => O
    end in
  match skip with
  | S k => next k
  | O =>
      if whole_word_here kw prev s then S (next (length kw - 1)%nat)
      else next O
  end.

Definition whole_word_count (kw text : pystr) : nat :=
  whole_word_count_from kw None text 0.

Definition sum_Q (l : list Q) : Q := foldr Qplus 0%Q l.

(** The durations of the valid ranges of a text: those of its date ranges
    that split in two, parse, and last a positive time. *)
Definition positive_durations (now : month_start) (text : pystr) : list Q :=
  List.filter (Qltb 0)
    (omap (range_duration now) (findall true date_pattern text)).

(** Which pattern closes the group [n], and with which body, along the
    sequence a pattern is. *)
Fixpoint closes (n : nat) (r : regex) : bool :=
  match r with
  | Grp k r' => (k =? n)%nat || closes n r'
  | Seq r1 r2 | Alt r1 r2 => closes n r1 || closes n r2
  | _ => false
  end.

Fixpoint group_body (n : nat) (r : regex) : option regex :=
  match r with
  | Grp k r' => if (k =? n)%nat then Some r' else None
  | Seq r1 r2 => if closes n r2 then group_body n r2 else group_body n r1
  | _ => None
  end.

(** The text ends with a digit. *)
Definition ends_with_digit (s : pystr) : Prop :=
  ∃ pre c, s = pre ++ [c] ∧ is_digit c = true.

(** No character of the text is one of the three dashes. *)
Definition dashless (s : pystr) : Prop :=
  Forall (λ c, atom_matches false dash c = false) s.

(** The places of a text where a word begins or ends. *)
Fixpoint word_boundaries_from (prev : option N) (s : pystr) : nat :=
  (if at_boundary prev s then 1 else 0)
  + match s with
    | c :: s' => word_boundaries_from (Some c) s'
    | [] => 0
    end.

Definition word_boundaries (text : pystr) : nat :=
  word_boundaries_from None text.

(** How many times a keyword is listed. *)
Definition listed (kw : pystr) (kws : list pystr) : nat :=
  length (List.filter (λ k, text_eqb k kw) kws).

(** The snippets of the matches of a keyword in a text. *)
Definition snippets (text kw : pystr) : list pystr :=
  context_of text <$> finditer false (keyword_re kw) text.

(** The sum of the two scores, before the bonus. *)
Definition base_score (self : ResumeFilter) (text : pystr) : Z :=
  (mandatory_score_spec self text + optional_score_spec self text)%Z.

(** What a file of the listing contributes to the pool of
    [process_resumes]. *)
Definition candidate_for (self : ResumeFilter) (w : world) (now : month_start)
    (resume_dir filename : pystr) : option candidate :=
  let text := extract_text w (path_join resume_dir filename) in
  if supported filename && negb (bool_decide (py_strip text = [])) then
    match analyze_resume self now text with
    | Return a =>
        match missing_mandatory a with
        | [] => Some (candidate_of self filename a)
        | _ => None
        end
    | Raise _ => None
    end
  else None.

(** The file is analysed: its extension is supported and its text is not
    blank. *)
Definition analysed (w : world) (resume_dir filename : pystr) : Prop :=
  supported filename = true
  ∧ py_strip (extract_text w (path_join resume_dir filename)) ≠ [].

(** No character of the text is a digit. *)
Definition digit_free (s : pystr) : Prop :=
  Forall (λ c, is_digit c = false) s.

(** What a path contributes to the pool of [process_resumes] of
    [src/gradioApp.py]. *)
Definition gradio_candidate_for (self : ResumeFilter) (w : world)
    (now : month_start) (filepath : pystr) : option candidate :=
  let text := gradio_extract_text w filepath in
  if supported filepath && negb (bool_decide (py_strip text = [])) then
    match analyze_resume self now text with
    | Return a =>
        match missing_mandatory a with
        | [] => Some (candidate_of self (basename filepath) a)
        | _ => None
        end
    | Raise _ => None
    end
  else None.

(** * Properties *)

(** ** What a match consists of *)


Lemma rep_greedy_sound p lo hi prev s prev' s' :
  (prev', s') ∈ rep_greedy p lo hi prev s →
  ∃ w, s = w ++ s' ∧ Forall (λ c, p c = true) w ∧ (lo ≤ length w)%nat
       ∧ (∀ n, hi = Some n → (length w ≤ n)%nat).
Proof.
  revert lo hi prev.
  induction s as [|c s IH]; intros lo hi prev Hin; simpl in Hin.
  - destruct lo; [|by apply elem_of_nil in Hin].
    apply list_elem_of_singleton in Hin. injection Hin as -> ->.
    exists []. repeat split; [constructor | simpl; lia | intros; simpl; lia].
  - assert (Hstop : (prev', s') ∈ match lo with O => [(prev, c :: s)] | S _ => [] end →
      ∃ w, c :: s = w ++ s' ∧ Forall (λ c, p c = true) w ∧ (lo ≤ length w)%nat
           ∧ (∀ n, hi = Some n → (length w ≤ n)%nat)).
    { intros H. destruct lo; [|by apply elem_of_nil in H].
      apply list_elem_of_singleton in H. injection H as -> ->.
      exists []. repeat split; [constructor | simpl; lia | intros; simpl; lia]. }
    destruct (p c && negb (bool_decide (hi = Some O))) eqn:Hc; [|by auto].
    apply elem_of_app in Hin as [Hin|Hin]; [|by auto].
    apply andb_true_iff in Hc as [Hpc Hhi].
    apply negb_true_iff, bool_decide_eq_false in Hhi.
    apply IH in Hin as (w & -> & Hw & Hlo & Hmax).
    exists (c :: w). repeat split; auto.
    + simpl. lia.
    + intros n ->. destruct n as [|n]; [done|].
      specialize (Hmax n eq_refl). simpl. lia.
Qed.

Lemma take_consumed (w s : pystr) :
  take (length (w ++ s) - length s) (w ++ s) = w.
Proof.
  rewrite length_app.
  replace (length w + length s - length s)%nat with (length w) by lia.
  by rewrite take_app_length.
Qed.

Lemma rmatch_sound icase r st st' :
  st' ∈ rmatch icase r st →
  ∃ w, ms_rest st = w ++ ms_rest st'
       ∧ derives icase r w (ms_groups st) (ms_groups st').
Proof.
  revert st st'. induction r as [|a|a lo hi|r1 IH1 r2 IH2|r1 IH1 r2 IH2|n r IH|];
    intros st st' Hin; simpl in Hin.
  - apply list_elem_of_singleton in Hin as ->. by exists [].
  - destruct (ms_rest st) as [|c s] eqn:Hs; [by apply elem_of_nil in Hin|].
    destruct (atom_matches icase a c) eqn:Hc; [|by apply elem_of_nil in Hin].
    apply list_elem_of_singleton in Hin as ->. exists [c]. simpl. eauto 6.
  - apply list_elem_of_fmap in Hin as ([p s] & -> & Hin).
    apply rep_greedy_sound in Hin as (w & Hs & Hw & Hlo & Hhi).
    exists w. simpl. auto.
  - apply list_elem_of_bind in Hin as (st1 & Hin2 & Hin1).
    apply IH1 in Hin1 as (w1 & Hs1 & Hd1).
    apply IH2 in Hin2 as (w2 & Hs2 & Hd2).
    exists (w1 ++ w2). split.
    + by rewrite Hs1, Hs2, (assoc_L (++)).
    + simpl. eauto 8.
  - apply elem_of_app in Hin as [Hin|Hin].
    + apply IH1 in Hin as (w & ? & ?). exists w. simpl. auto.
    + apply IH2 in Hin as (w & ? & ?). exists w. simpl. auto.
  - apply list_elem_of_fmap in Hin as (st1 & -> & Hin).
    apply IH in Hin as (w & Hs & Hd). exists w. simpl. split; [done|].
    exists (ms_groups st1). split; [done|].
    by rewrite Hs, take_consumed.
  - destruct (at_boundary _ _); [|by apply elem_of_nil in Hin].
    apply list_elem_of_singleton in Hin as ->. by exists [].
Qed.

Lemma match_here_Some icase r adv i prev s m :
  match_here icase r adv i prev s = Some m →
  ∃ w rest, s = w ++ rest
    ∧ derives icase r w [] (m_groups m)
    ∧ m = ReMatch i (i + length w) w (m_groups m)
    ∧ (adv = true → w ≠ []).
Proof.
  unfold match_here. intros H.
  apply fmap_Some in H as (st & Hhd & ->).
  apply head_Some_elem_of, list_elem_of_filter in Hhd as [Hadv Hin].
  apply rmatch_sound in Hin as (w & Hs & Hd). simpl in *.
  exists w, (ms_rest st). split; [done|]. split; [done|].
  rewrite Hs, take_consumed. rewrite length_app.
  replace (length w + length (ms_rest st) - length (ms_rest st))%nat
    with (length w) by lia.
  split; [done|].
  intros ->. destruct Hadv as [Hadv|Hadv]; [done|].
  rewrite Hs, length_app in Hadv. intros ->. simpl in Hadv. lia.
Qed.

Lemma finditer_from_elem icase r i prev s skip m :
  m ∈ finditer_from icase r i prev s skip →
  ∃ adv i' prev' s', match_here icase r adv i' prev' s' = Some m.
Proof.
  revert i prev skip.
  induction s as [|c s IH]; intros i prev skip Hin; simpl in Hin.
  - destruct skip; [|by apply elem_of_nil in Hin].
    destruct (match_here icase r false i prev []) as [m1|] eqn:H1;
      [|by apply elem_of_nil in Hin].
    destruct (m_end m1 =? i)%nat.
    + apply elem_of_cons in Hin as [->|Hin]; [eauto|].
      destruct (match_here icase r true i prev []) as [m2|] eqn:H2;
        [|by apply elem_of_nil in Hin].
      apply list_elem_of_singleton in Hin as ->. eauto.
    + apply list_elem_of_singleton in Hin as ->. eauto.
  - destruct skip; [|by eauto].
    destruct (match_here icase r false i prev (c :: s)) as [m1|] eqn:H1;
      [|by eauto].
    destruct (m_end m1 =? i)%nat.
    + apply elem_of_cons in Hin as [->|Hin]; [eauto|].
      destruct (match_here icase r true i prev (c :: s)) as [m2|] eqn:H2;
        [|by eauto].
      apply elem_of_cons in Hin as [->|Hin]; eauto.
    + apply elem_of_cons in Hin as [->|Hin]; eauto.
Qed.

Lemma finditer_derives icase r s m :
  m ∈ finditer icase r s →
  derives icase r (m_group0 m) [] (m_groups m).
Proof.
  intros Hin. apply finditer_from_elem in Hin as (adv & i & prev & s' & H).
  apply match_here_Some in H as (w & rest & _ & Hd & Hm & _).
  by rewrite Hm at 1.
Qed.

(** ** The stable sort *)

Section sort_by.
Context {A K : Type} (key : A → K) (lt : K → K → bool).

Lemma insert_by_perm x l : insert_by key lt x l ≡ₚ x :: l.
Proof.
  induction l as [|y l IH]; simpl; [done|].
  destruct (lt (key y) (key x)); [|done].
  rewrite IH. apply Permutation_swap.
Qed.

Lemma sort_by_perm l : sort_by key lt l ≡ₚ l.
Proof.
  induction l as [|x l IH]; simpl; [done|].
  unfold sort_by in *. simpl. by rewrite insert_by_perm, IH.
Qed.


Hypothesis lt_asym : ∀ a b, lt a b = true → lt b a = false.
Hypothesis le_trans : ∀ a b c, lt b a = false → lt c b = false → lt c a = false.

Lemma insert_by_sorted x l :
  StronglySorted (not_after key lt) l → StronglySorted (not_after key lt) (insert_by key lt x l).
Proof.
  induction 1 as [|y l Hl IH Hy]; simpl.
  - repeat constructor.
  - destruct (lt (key y) (key x)) eqn:Hyx.
    + constructor; [done|].
      eapply Forall_forall. intros z Hz.
      rewrite insert_by_perm in Hz.
      apply elem_of_cons in Hz as [->|Hz].
      * by apply lt_asym.
      * rewrite Forall_forall in Hy. by apply Hy.
    + constructor; [by constructor|].
      constructor; [done|].
      eapply Forall_impl; [exact Hy|].
      intros z Hz. unfold not_after in *. by eapply le_trans.
Qed.

Lemma sort_by_sorted l : StronglySorted (not_after key lt) (sort_by key lt l).
Proof.
  induction l as [|x l IH]; simpl; [constructor|].
  by apply insert_by_sorted.
Qed.

(** Stability: a class of elements none of which is smaller than
    another keeps its order. *)
Lemma insert_by_stable (P : A → bool) x l :
  (∀ a b, P a = true → P b = true → lt (key a) (key b) = false) →
  List.filter P (insert_by key lt x l) = List.filter P (x :: l).
Proof.
  intros HP. induction l as [|y l IH]; simpl; [done|].
  destruct (lt (key y) (key x)) eqn:Hyx; [|done].
  simpl. rewrite IH. simpl.
  destruct (P x) eqn:Hx, (P y) eqn:Hy; try done.
  by rewrite (HP y x) in Hyx.
Qed.

Lemma sort_by_stable (P : A → bool) l :
  (∀ a b, P a = true → P b = true → lt (key a) (key b) = false) →
  List.filter P (sort_by key lt l) = List.filter P l.
Proof.
  intros HP. induction l as [|x l IH]; simpl; [done|].
  unfold sort_by in *. simpl. rewrite insert_by_stable by done.
  simpl. by rewrite IH.
Qed.
End sort_by.

Lemma Qltb_lt a b : Qltb a b = true ↔ (a < b)%Q.
Proof.
  unfold Qltb. rewrite negb_true_iff, <- not_true_iff_false, Qle_bool_iff.
  split; [apply Qnot_le_lt | apply Qlt_not_le].
Qed.

Lemma key_lt_spec a b :
  key_lt a b = true ↔ (a.1 < b.1)%Q ∨ ((a.1 == b.1)%Q ∧ (a.2 < b.2)%Z).
Proof.
  unfold key_lt. destruct (Qeq_bool a.1 b.1) eqn:He.
  - apply Qeq_bool_iff in He. rewrite Z.ltb_lt. split; [by auto|].
    intros [Hlt|[_ ?]]; [|done]. rewrite He in Hlt.
    by apply Qlt_irrefl in Hlt.
  - rewrite Qltb_lt. split; [by auto|]. intros [?|[He' _]]; [done|].
    apply Qeq_bool_iff in He'. congruence.
Qed.

Lemma key_lt_false a b :
  key_lt a b = false ↔ (b.1 < a.1)%Q ∨ ((a.1 == b.1)%Q ∧ (b.2 ≤ a.2)%Z).
Proof.
  rewrite <- not_true_iff_false, key_lt_spec. split.
  - intros Hn. destruct (Q_dec a.1 b.1) as [[Hlt|Hgt]|Heq].
    + destruct Hn. by left.
    + by left.
    + right. split; [done|]. destruct (Z.lt_ge_cases a.2 b.2); [|done].
      destruct Hn. by right.
  - intros [Hgt|[Heq Hle]] [Hlt|[Heq' Hlt]].
    + apply (Qlt_irrefl a.1). by apply Qlt_trans with b.1.
    + rewrite Heq' in Hgt. by apply Qlt_irrefl in Hgt.
    + rewrite Heq in Hlt. by apply Qlt_irrefl in Hlt.
    + lia.
Qed.

Lemma key_lt_asym a b : key_lt a b = true → key_lt b a = false.
Proof.
  rewrite key_lt_spec, key_lt_false. intros [?|[? ?]]; [by left|].
  right. split; [done|lia].
Qed.

Lemma key_le_trans a b c :
  key_lt b a = false → key_lt c b = false → key_lt c a = false.
Proof.
  rewrite !key_lt_false.
  intros [Hab|[Hab Hab']] [Hbc|[Hbc Hbc']].
  - left. by apply Qlt_trans with b.1.
  - left. by rewrite Hbc.
  - left. by rewrite <- Hab.
  - right. split; [by rewrite Hbc, Hab|lia].
Qed.


Lemma StronglySorted_weaken {A} (R S : A → A → Prop) l :
  (∀ a b, R a b → S a b) → StronglySorted R l → StronglySorted S l.
Proof.
  intros HRS. induction 1 as [|x l Hl IH Hx]; constructor; [done|].
  eapply Forall_impl; [exact Hx|]. intros y. apply HRS.
Qed.

Lemma not_after_ranked_before a b :
  not_after sort_key key_lt a b ↔ ranked_before a b.
Proof.
  unfold not_after, ranked_before. rewrite key_lt_false. simpl.
  split; intros [Hlt|[Heq Hm]].
  - left. apply Qopp_lt_compat in Hlt. by rewrite !Qopp_involutive in Hlt.
  - right. split.
    + apply Qopp_comp in Heq. rewrite !Qopp_involutive in Heq. by symmetry.
    + by destruct (c_experience_met a), (c_experience_met b).
  - left. by apply Qopp_lt_compat.
  - right. split.
    + by rewrite Heq.
    + destruct (c_experience_met a), (c_experience_met b); try done.
      by specialize (Hm eq_refl).
Qed.

Lemma same_rank_not_lt x a b :
  same_rank x a = true → same_rank x b = true →
  key_lt (sort_key a) (sort_key b) = false.
Proof.
  unfold same_rank. rewrite !andb_true_iff, !bool_decide_eq_true.
  intros [Ha Ha'] [Hb Hb']. apply Qeq_bool_iff in Ha, Hb.
  apply key_lt_false. right. simpl. split.
  - by rewrite Ha, Hb.
  - rewrite Ha', Hb'. lia.
Qed.

Lemma collect_pool self w now dir filenames results pool :
  collect self w now dir filenames results = Return pool →
  pool = results ++ omap (candidate_for self w now dir) filenames
  ∧ ∀ filename, filename ∈ filenames → analysed w dir filename →
      ∃ a, analyze_resume self now
             (extract_text w (path_join dir filename)) = Return a.
Proof.
  revert results. induction filenames as [|f fs IH]; intros results; simpl.
  - intros [= <-]. split; [by rewrite app_nil_r|]. by intros ? ?%elem_of_nil.
  - unfold candidate_for at 1.
    destruct (supported f) eqn:Hsup; simpl.
    + destruct (bool_decide (py_strip (extract_text w (path_join dir f)) = []))
        eqn:Hblank; simpl.
      * intros [-> Hall]%IH. split; [done|].
        intros filename [->|Hin]%elem_of_cons Han; [|by apply Hall].
        destruct Han as [_ Hnb]. by apply bool_decide_eq_true in Hblank.
      * destruct (analyze_resume self now _) as [a|e] eqn:Ha; [|done]. simpl.
        intros [-> Hall]%IH. split.
        -- destruct (missing_mandatory a); [|done].
           by rewrite <- (assoc_L (++)).
        -- intros filename [->|Hin]%elem_of_cons Han; [by eexists|].
           by apply Hall.
    + intros [-> Hall]%IH. split; [done|].
      intros filename [->|Hin]%elem_of_cons Han; [|by apply Hall].
      destruct Han as [Hs _]. congruence.
Qed.

(** C8.  The list [process_resumes] returns is the pool of candidates,
    taken in the order of the listing, rearranged so that scores descend
    and, among equal scores, the candidates that meet the experience
    requirement come first; candidates that tie in both keys keep the
    order in which the listing has their files. *)
Theorem ranking_sorted_and_stable self w now resume_dir ranked :
  process_resumes self w now resume_dir = Return ranked →
  let pool :=
    omap (candidate_for self w now resume_dir) (listdir w resume_dir) in
  ranked ≡ₚ pool
  ∧ StronglySorted ranked_before ranked
  ∧ ∀ x, List.filter (same_rank x) ranked = List.filter (same_rank x) pool.
Proof.
  unfold process_resumes.
  destruct (collect _ _ _ _ _ _) as [results|] eqn:Hpool; [|done]. simpl.
  intros [= <-]. apply collect_pool in Hpool as [-> _]. simpl.
  unfold rank. split; [apply sort_by_perm|]. split.
  - eapply StronglySorted_weaken;
      [|apply (sort_by_sorted sort_key key_lt key_lt_asym key_le_trans)].
    intros a b. apply not_after_ranked_before.
  - intros x. apply sort_by_stable. intros a b. apply same_rank_not_lt.
Qed.

(** ** The keyword loops *)

Lemma mandatory_fold_missing text kws missing counts found :
  (foldl (mandatory_step text) (missing, counts, found) kws).1.1
  = missing ++ List.filter (λ kw, (occurrences text kw =? 0)%nat) kws.
Proof.
  revert missing counts found.
  induction kws as [|kw kws IH]; intros missing counts found; simpl.
  - by rewrite app_nil_r.
  - rewrite IH. fold (occurrences text kw).
    destruct (occurrences text kw =? 0)%nat; [|done].
    by rewrite <- (assoc_L (++)).
Qed.

Lemma mandatory_fold_counts text kws missing counts found :
  (foldl (mandatory_step text) (missing, counts, found) kws).1.2
  = foldl (λ m kw, <[kw := occurrences text kw]> m) counts kws.
Proof.
  revert missing counts found.
  induction kws as [|kw kws IH]; intros missing counts found; simpl; [done|].
  by rewrite IH.
Qed.

Lemma optional_fold_counts text kws counts :
  foldl (optional_step text) counts kws
  = foldl (λ m kw, <[kw := occurrences text kw]> m) counts kws.
Proof.
  revert counts. induction kws as [|kw kws IH]; intros counts; simpl; [done|].
  rewrite IH. unfold optional_step, findall, occurrences.
  by rewrite length_fmap.
Qed.

Lemma insert_fold_lookup (f : pystr → nat) (kws : list pystr)
    (m : gmap pystr nat) (k : pystr) :
  foldl (λ m kw, <[kw := f kw]> m) m kws !! k
  = if bool_decide (k ∈ kws) then Some (f k) else m !! k.
Proof.
  revert m. induction kws as [|kw kws IH]; intros m; simpl; [done|].
  rewrite IH. destruct (decide (k ∈ kws)) as [Hin|Hin].
  - rewrite !bool_decide_eq_true_2; [done| |done]. by right.
  - rewrite (bool_decide_eq_false_2 _ Hin).
    destruct (decide (k = kw)) as [->|Hne].
    + rewrite bool_decide_eq_true_2 by left. apply lookup_insert_eq.
    + rewrite bool_decide_eq_false_2.
      * by apply lookup_insert_ne.
      * intros [?|?]%elem_of_cons; done.
Qed.

Lemma final_counts_lookup self text kw :
  kw ∈ mandatory self ++ optional self →
  final_counts self text !! kw = Some (occurrences text kw).
Proof.
  intros Hin. unfold final_counts. rewrite !insert_fold_lookup.
  apply elem_of_app in Hin as [Hin|Hin].
  - destruct (bool_decide (kw ∈ optional self)); [done|].
    by rewrite bool_decide_eq_true_2.
  - by rewrite bool_decide_eq_true_2.
Qed.

Lemma final_counts_mandatory_score self text :
  sum_Z ((λ kw, Z.of_nat (count_of (final_counts self text) kw) * 3)%Z
           <$> mandatory self)
  = mandatory_score_spec self text.
Proof.
  unfold mandatory_score_spec. f_equal. apply list_fmap_ext.
  intros i kw Hkw. unfold count_of.
  rewrite final_counts_lookup; [done|].
  apply elem_of_app. left. by eapply list_elem_of_lookup_2.
Qed.

Lemma final_counts_optional_score self text :
  sum_Z ((λ kw, Z.of_nat (count_of (final_counts self text) kw))
           <$> optional self)
  = optional_score_spec self text.
Proof.
  unfold optional_score_spec. f_equal. apply list_fmap_ext.
  intros i kw Hkw. unfold count_of.
  rewrite final_counts_lookup; [done|].
  apply elem_of_app. right. by eapply list_elem_of_lookup_2.
Qed.

(** [analyze_resume], with its loops read off. *)
Lemma analyze_resume_eq self now text :
  analyze_resume self now text
  = (bonus ← exp_bonus self (extract_experience now text)
               (mandatory_score_spec self text) (optional_score_spec self text);
     mret {| missing_mandatory :=
               List.filter (λ kw, (occurrences text kw =? 0)%nat) (mandatory self);
             keyword_counts := final_counts self text;
             found_sections :=
               (foldl (mandatory_step text) ([], ∅, ∅) (mandatory self)).2;
             experience := extract_experience now text;
             score := (inject_Z (mandatory_score_spec self text)
                       + inject_Z (optional_score_spec self text) + bonus)%Q |}).
Proof.
  unfold analyze_resume.
  pose proof (mandatory_fold_missing text (mandatory self) [] ∅ ∅) as Hm.
  pose proof (mandatory_fold_counts text (mandatory self) [] ∅ ∅) as Hc.
  destruct (foldl (mandatory_step text) ([], ∅, ∅) (mandatory self))
    as [[missing counts] found].
  simpl in Hm, Hc. subst missing counts.
  rewrite optional_fold_counts. fold (final_counts self text).
  by rewrite final_counts_mandatory_score, final_counts_optional_score.
Qed.

(** ** The experience bonus *)

Lemma py_min_Qmin a b : (py_min a b == Qmin a b)%Q.
Proof.
  unfold py_min. destruct (Qltb b a) eqn:Hlt.
  - apply Qltb_lt in Hlt. symmetry. apply Q.min_r. by apply Qlt_le_weak.
  - symmetry. apply Q.min_l. unfold Qltb in Hlt.
    apply negb_false_iff in Hlt. by apply Qle_bool_iff.
Qed.

Lemma exp_bonus_Return self experience ms os b :
  exp_bonus self experience ms os = Return b →
  (b == experience_bonus_spec experience (min_experience self) ms os)%Q.
Proof.
  unfold exp_bonus, experience_bonus_spec.
  destruct experience as [e|]; [|by intros [= <-]].
  destruct (Qle_bool (min_experience self) e) eqn:Hle.
  - apply Qle_bool_iff in Hle. unfold py_div.
    destruct (Qeq_bool (min_experience self) 0); [done|]. simpl.
    intros [= <-].
    destruct (Qlt_le_dec e (min_experience self)) as [Hlt|_].
    + by apply Qlt_not_le in Hlt.
    + by rewrite py_min_Qmin, inject_Z_plus.
  - intros [= <-].
    destruct (Qlt_le_dec e (min_experience self)) as [_|Hge]; [done|].
    apply Qle_bool_iff in Hge. congruence.
Qed.

Lemma exp_bonus_zero_minimum self e ms os :
  (min_experience self == 0)%Q → (0 <= e)%Q →
  exp_bonus self (Some e) ms os = Raise ZeroDivisionError.
Proof.
  intros Hmin He. unfold exp_bonus, py_div.
  assert (Qle_bool (min_experience self) e = true) as ->.
  { apply Qle_bool_iff. by rewrite Hmin. }
  by apply Qeq_bool_iff in Hmin as ->.
Qed.

Lemma exp_bonus_total self experience ms os :
  ¬ (min_experience self == 0)%Q →
  ∃ b, exp_bonus self experience ms os = Return b.
Proof.
  intros Hmin. unfold exp_bonus, py_div.
  destruct experience as [e|]; [|by eexists].
  destruct (Qle_bool _ _); [|by eexists].
  destruct (Qeq_bool (min_experience self) 0) eqn:He; [|by eexists].
  by apply Qeq_bool_iff in He.
Qed.

(** ** The experience is never negative *)

Lemma py_float_nonneg w q : py_float w = Some q → (0 <= q)%Q.
Proof.
  unfold py_float. destruct (break_at full_stop w) as [ip fp].
  destruct (ip ++ default [] fp) as [|c ds]; [done|].
  destruct (digits_value 0 (c :: ds)) as [v|]; [|done]. simpl.
  intros [= <-]. unfold Qle. simpl. lia.
Qed.

Lemma first_float_Some ms q :
  first_float ms = Some q →
  ∃ m w, m ∈ ms ∧ m_group 1 m = Some w ∧ py_float w = Some q.
Proof.
  induction ms as [|m ms IH]; simpl; [done|].
  destruct (m_group 1 m) as [w|] eqn:Hg; simpl.
  - destruct (py_float w) as [q'|] eqn:Hf.
    + intros [= <-]. exists m, w. split; [by left|done].
    + intros (m' & w' & ? & ?)%IH. exists m', w'. split; [by right|done].
  - intros (m' & w' & ? & ?)%IH. exists m', w'. split; [by right|done].
Qed.

Lemma explicit_experience_Some ps text q :
  explicit_experience ps text = Some q →
  ∃ p m w, p ∈ ps ∧ m ∈ finditer false p text
           ∧ m_group 1 m = Some w ∧ py_float w = Some q.
Proof.
  induction ps as [|p ps IH]; simpl; [done|].
  destruct (first_float (finditer false p text)) as [q'|] eqn:Hf.
  - intros [= <-]. apply first_float_Some in Hf as (m & w & ? & ? & ?).
    exists p, m, w. split; [by left|done].
  - intros (p' & m & w & ? & ?)%IH. exists p', m, w. split; [by right|done].
Qed.

Lemma date_fold_nonneg now ranges total n :
  (0 <= total)%Q → (0 <= (foldl (date_step now) (total, n) ranges).1)%Q.
Proof.
  revert total n. induction ranges as [|r ranges IH]; intros total n Ht; [done|].
  simpl. unfold date_step at 2.
  destruct (range_duration now r) as [dur|]; [|by apply IH].
  destruct (Qltb 0 dur) eqn:Hd; [|by apply IH].
  apply IH. simpl. apply Qltb_lt in Hd.
  rewrite <- (Qplus_0_l 0). apply Qplus_le_compat; [done|].
  by apply Qlt_le_weak.
Qed.

Lemma extract_experience_nonneg now text e :
  extract_experience now text = Some e → (0 <= e)%Q.
Proof.
  unfold extract_experience.
  destruct (explicit_experience patterns text) as [q|] eqn:Hx.
  - intros [= <-].
    apply explicit_experience_Some in Hx as (_ & _ & w & _ & _ & _ & Hf).
    by eapply py_float_nonneg.
  - pose proof (date_fold_nonneg now (findall true date_pattern text) 0 0) as H.
    destruct (foldl _ _ _) as [total n]. simpl in H.
    destruct (0 <? n)%nat; [|done]. intros [= <-]. by apply H.
Qed.

(** C1.  Whenever [analyze_resume] returns, the score is the mandatory
    score (three per match of a mandatory keyword) plus the optional
    score (one per match of an optional keyword) plus the bonus, which is
    nothing when the experience is unknown or below the minimum and
    otherwise min(experience / minimum, 1.2) times the two scores times
    0.2.  With two matches of a mandatory keyword, one of an optional
    keyword, six years of experience and a minimum of five, the score is
    8.68. *)
Theorem total_score_formula :
  (∀ self now text a,
     analyze_resume self now text = Return a →
     (score a == inject_Z (mandatory_score_spec self text)
                 + inject_Z (optional_score_spec self text)
                 + experience_bonus_spec (extract_experience now text)
                     (min_experience self)
                     (mandatory_score_spec self text)
                     (optional_score_spec self text))%Q)
  ∧ (∀ now,
       let self := init [] [str "python"] [str "django"] 5%Q in
       let text := str "python python django 6 years experience" in
       occurrences text (str "python") = 2%nat
       ∧ occurrences text (str "django") = 1%nat
       ∧ extract_experience now text = Some 6%Q
       ∧ ∃ a, analyze_resume self now text = Return a
              ∧ (score a == 8.68)%Q).
Proof.
  split.
  - intros self now text a. rewrite analyze_resume_eq.
    destruct (exp_bonus _ _ _ _) as [b|] eqn:Hb; [|done].
    intros [= <-]. simpl. apply exp_bonus_Return in Hb. by rewrite Hb.
  - intros now. repeat split; try by vm_compute.
    eexists. split; [by vm_compute|]. by vm_compute.
Qed.

(** C10.  With a minimum of zero, any text from which an experience is
    extracted makes [analyze_resume] raise [ZeroDivisionError]; with a
    positive minimum it always returns. *)
Theorem zero_minimum_divides_by_zero self now text :
  ((min_experience self == 0)%Q →
   ∀ e, extract_experience now text = Some e →
        analyze_resume self now text = Raise ZeroDivisionError)
  ∧ ((0 < min_experience self)%Q →
     ∃ a, analyze_resume self now text = Return a).
Proof.
  split.
  - intros Hmin e He. rewrite analyze_resume_eq, He.
    rewrite exp_bonus_zero_minimum; [done|done|].
    by eapply extract_experience_nonneg.
  - intros Hmin. rewrite analyze_resume_eq.
    destruct (exp_bonus_total self (extract_experience now text)
                (mandatory_score_spec self text) (optional_score_spec self text))
      as [b ->]; [|by eexists].
    intros H0. rewrite H0 in Hmin. by apply Qlt_irrefl in Hmin.
Qed.

(** ** Blank text *)

Lemma lstrip_nil s : lstrip s = [] ↔ Forall (λ c, is_space c = true) s.
Proof.
  induction s as [|c s IH]; simpl; [by split; [constructor|]|].
  destruct (is_space c) eqn:Hc.
  - rewrite IH. split; [by constructor|]. by inversion 1.
  - split; [done|]. inversion 1; congruence.
Qed.

Lemma lstrip_all_space s : Forall (λ c, is_space c = true) (lstrip s) → lstrip s = [].
Proof.
  induction s as [|c s IH]; simpl; [done|].
  destruct (is_space c) eqn:Hc; [done|]. inversion 1; congruence.
Qed.

Lemma py_strip_nil s : py_strip s = [] ↔ Forall (λ c, is_space c = true) s.
Proof.
  unfold py_strip, rstrip. split.
  - intros H. apply (f_equal reverse) in H. rewrite reverse_involutive in H.
    simpl in H. apply lstrip_nil in H. rewrite Forall_reverse in H.
    apply lstrip_all_space in H. by apply lstrip_nil.
  - intros H. apply lstrip_nil in H. by rewrite H.
Qed.

Lemma py_lower_blank s : py_strip s = [] → py_lower s = s.
Proof.
  rewrite py_strip_nil. unfold py_lower.
  induction 1 as [|c s Hc _ IH]; [done|].
  change ((c :: s) ≫= lower_cp) with (lower_cp c ++ (s ≫= lower_cp)).
  rewrite IH. unfold lower_cp, is_space in *. by destruct (classify c).
Qed.

(** A resume whose readers fail has blank text ([src/resume_filter.py]). *)
Lemma extract_text_raises_blank w filepath :
  extraction_raises w filepath → py_strip (extract_text w filepath) = [].
Proof.
  unfold extraction_raises, extract_text.
  destruct (endswith _ (str ".pdf")).
  - destruct (pdf_pages w filepath) as [pages|msg]; [|done].
    intros [Hblank [msg ->]]. rewrite bool_decide_eq_true_2 by done.
    by rewrite py_lower_blank.
  - destruct (_ || _); [|done]. by intros [msg ->].
Qed.

(** ** The loop of [process_resumes] *)

Lemma collect_elem self w now dir filenames results pool c :
  collect self w now dir filenames results = Return pool →
  c ∈ pool →
  c ∈ results ∨ (c_filename c ∈ filenames ∧ admitted self w now dir c).
Proof.
  revert results.
  induction filenames as [|f fs IH]; intros results; simpl.
  - intros [= <-]. by left.
  - destruct (supported f) eqn:Hsup; simpl.
    + destruct (bool_decide (py_strip (extract_text w (path_join dir f)) = []))
        eqn:Hblank.
      * intros H Hc. destruct (IH _ H Hc) as [?|[? ?]]; [by left|].
        right. split; [by right|done].
      * apply bool_decide_eq_false in Hblank.
        destruct (analyze_resume self now _) as [a|e] eqn:Ha; [|done]. simpl.
        intros H Hc. destruct (IH _ H Hc) as [Hin|[? ?]].
        -- destruct (missing_mandatory a) eqn:Hmiss; [|by left].
           apply elem_of_app in Hin as [?|Hin]; [by left|].
           apply list_elem_of_singleton in Hin as ->.
           right. split; [by left|].
           unfold admitted. simpl. eauto 8.
        -- right. split; [by right|done].
    + intros H Hc. destruct (IH _ H Hc) as [?|[? ?]]; [by left|].
      right. split; [by right|done].
Qed.

Lemma process_resumes_elem self w now dir ranked c :
  process_resumes self w now dir = Return ranked →
  c ∈ ranked →
  c_filename c ∈ listdir w dir ∧ admitted self w now dir c.
Proof.
  unfold process_resumes.
  destruct (collect _ _ _ _ _ _) as [pool|] eqn:Hpool; [|done]. simpl.
  intros [= <-] Hc.
  unfold rank in Hc. rewrite sort_by_perm in Hc.
  destruct (collect_elem _ _ _ _ _ _ _ _ Hpool Hc) as [Hc'|?]; [|done].
  by apply elem_of_nil in Hc'.
Qed.

Lemma filter_nil_Forall {A} (P : A → bool) (l : list A) :
  List.filter P l = [] → Forall (λ x, P x = false) l.
Proof.
  induction l as [|x l IH]; simpl; [by constructor|].
  destruct (P x) eqn:Hx; [done|]. intros H. constructor; auto.
Qed.

(** C3.  A candidate of the ranked output comes from a file of the
    listing, has no missing mandatory keyword, and every mandatory keyword
    has at least one match in the text extracted from its file.  A resume
    with three matches of "python" and none of "sql" is left out although
    its score is 9. *)
Theorem ranked_have_every_mandatory_keyword :
  (∀ self w now resume_dir ranked c,
     process_resumes self w now resume_dir = Return ranked →
     c ∈ ranked →
     c_missing_mandatory c = []
     ∧ c_filename c ∈ listdir w resume_dir
     ∧ ∀ kw, kw ∈ mandatory self →
         (0 < occurrences
                (extract_text w (path_join resume_dir (c_filename c))) kw)%nat)
  ∧ (∀ now,
       let self := init [] [str "python"; str "sql"] [] 1%Q in
       let w := one_docx (str "cv.docx") (str "Python, python and PYTHON") in
       (∃ a, analyze_resume self now (extract_text w (str "resumes/cv.docx"))
               = Return a
             ∧ (score a == 9)%Q ∧ missing_mandatory a = [str "sql"])
       ∧ process_resumes self w now (str "resumes") = Return []).
Proof.
  split.
  - intros self w now dir ranked c Hp Hc.
    destruct (process_resumes_elem _ _ _ _ _ _ Hp Hc)
      as (Hin & _ & _ & a & Ha & Hmiss & Hcand).
    split; [by rewrite Hcand|]. split; [done|].
    intros kw Hkw. rewrite analyze_resume_eq in Ha.
    destruct (exp_bonus _ _ _ _); [|done]. injection Ha as <-. simpl in Hmiss.
    apply filter_nil_Forall in Hmiss. rewrite Forall_forall in Hmiss.
    specialize (Hmiss kw Hkw). apply Nat.eqb_neq in Hmiss. lia.
  - intros now. split; [|by vm_compute].
    eexists. split; [by vm_compute|]. split; by vm_compute.
Qed.

(** In [src/resume_filter.py] a file whose readers raise, or whose text
    is blank, yields no candidate, and the loop goes on with the files
    that follow. *)
Lemma failed_or_blank_resume_is_skipped self w now resume_dir :
  (∀ ranked c,
     process_resumes self w now resume_dir = Return ranked → c ∈ ranked →
     let filepath := path_join resume_dir (c_filename c) in
     ¬ extraction_raises w filepath ∧ py_strip (extract_text w filepath) ≠ [])
  ∧ (∀ filename filenames results,
       let filepath := path_join resume_dir filename in
       extraction_raises w filepath ∨ py_strip (extract_text w filepath) = [] →
       collect self w now resume_dir (filename :: filenames) results
       = collect self w now resume_dir filenames results).
Proof.
  split.
  - intros ranked c Hp Hc.
    destruct (process_resumes_elem _ _ _ _ _ _ Hp Hc) as (_ & _ & Hblank & _).
    split; [|done]. intros Hr. by apply extract_text_raises_blank in Hr.
  - intros filename filenames results filepath Hskip.
    assert (py_strip (extract_text w filepath) = []) as Hblank.
    { destruct Hskip as [Hr|?]; [|done]. by apply extract_text_raises_blank. }
    simpl. destruct (supported filename); simpl; [|done].
    fold filepath. by rewrite bool_decide_eq_true_2.
Qed.

(** C7.  In [src/gradioApp.py] the same resume is not left out: the PDF
    reader raises on the one file of the batch, the message takes the
    place of the text, it holds the mandatory keyword, and the file is
    ranked with a score of 3. *)
Theorem gradio_failed_extraction_is_ranked now :
  let self := init [] [str "processing"] [] 1%Q in
  let w := broken_pdf (str "cv.pdf") (str "No /Root object") in
  gradio_extract_text w (str "cv.pdf")
    = str "Error processing cv.pdf: No /Root object"
  ∧ ∃ c, gradio_process_resumes self w now [str "cv.pdf"] = Return [c]
         ∧ c_filename c = str "cv.pdf" ∧ (c_score c == 3)%Q.
Proof.
  split; [by vm_compute|].
  eexists. split; [by vm_compute|]. split; by vm_compute.
Qed.

(** ** Keywords are literal whole words *)

Lemma rmatch_lit kw prev s g :
  rmatch false (lit_text kw) (MState prev s g)
  = if text_eqb (take (length kw) s) kw
    then [MState (last_before prev kw) (drop (length kw) s) g] else [].
Proof.
  revert prev s. induction kw as [|c kw IH]; intros prev s.
  - done.
  - simpl. destruct s as [|x s]; simpl.
    + done.
    + unfold chr_matches. destruct (x =? c) eqn:Hx.
      * apply N.eqb_eq in Hx as ->. simpl. rewrite app_nil_r, IH.
        unfold text_eqb.
        assert (last_before (Some c) kw = last_before prev (c :: kw)) as ->.
        { unfold last_before. destruct kw as [|k kw]; [done|]. simpl.
          destruct (last (k :: kw)) eqn:E; [done|]. by apply last_None in E. }
        destruct (decide (take (length kw) s = kw)) as [Heq|Hne].
        -- rewrite !bool_decide_eq_true_2; [done|by rewrite Heq|done].
        -- rewrite !bool_decide_eq_false_2; [done| |done]. congruence.
      * simpl. apply N.eqb_neq in Hx. unfold text_eqb.
        rewrite bool_decide_eq_false_2; [done|]. congruence.
Qed.

Lemma rmatch_keyword kw prev s :
  rmatch false (keyword_re kw) (MState prev s [])
  = if whole_word_here kw prev s
    then [MState (last_before prev kw) (drop (length kw) s) []] else [].
Proof.
  unfold keyword_re, whole_word_here. simpl.
  destruct (at_boundary prev s); simpl; [|done].
  rewrite app_nil_r, rmatch_lit.
  destruct (text_eqb _ _); simpl; [|done].
  rewrite app_nil_r. by destruct (at_boundary _ _).
Qed.

Lemma match_here_keyword kw adv i prev s :
  match_here false (keyword_re kw) adv i prev s
  = if whole_word_here kw prev s && (negb adv || (0 <? length kw)%nat)
    then Some (ReMatch i (i + length kw) kw []) else None.
Proof.
  unfold match_here. rewrite rmatch_keyword.
  destruct (whole_word_here kw prev s) eqn:Hw; simpl; [|done].
  apply andb_true_iff in Hw as [Hw _]. apply andb_true_iff in Hw as [_ Hw].
  apply bool_decide_eq_true in Hw.
  assert (length kw ≤ length s)%nat as Hlen.
  { rewrite <- Hw at 1. rewrite length_take. lia. }
  rewrite filter_cons. simpl. rewrite !length_drop.
  assert (∀ n, take (length s - (length s - length kw)) s = kw
               ∧ (n + (length s - (length s - length kw)) = n + length kw)%nat)
    as Hm.
  { intros n. replace (length s - (length s - length kw))%nat with (length kw)
      by lia. done. }
  destruct (decide _) as [Hd|Hd]; simpl.
  - rewrite length_drop. destruct (Hm i) as [-> ->].
    destruct adv; simpl; [|done].
    destruct Hd as [?|Hd]; [done|].
    destruct (length kw); simpl; [lia|done].
  - destruct adv; simpl; [|by destruct Hd; left].
    destruct (length kw); simpl; [done|]. destruct Hd. right. lia.
Qed.

Lemma finditer_keyword_length kw i prev s skip :
  length (finditer_from false (keyword_re kw) i prev s skip)
  = whole_word_count_from kw prev s skip.
Proof.
  revert i prev skip. induction s as [|c s IH]; intros i prev skip.
  - simpl. destruct skip; [|done]. rewrite !match_here_keyword. simpl.
    destruct (whole_word_here kw prev []) eqn:Hw; simpl; [|done].
    replace (i + length kw =? i)%nat with (length kw =? 0)%nat
      by (destruct (length kw); simpl; [by rewrite Nat.add_0_r, Nat.eqb_refl|
          symmetry; apply Nat.eqb_neq; lia]).
    destruct (length kw); simpl; done.
  - simpl. destruct skip; [|by apply IH]. rewrite !match_here_keyword. simpl.
    destruct (whole_word_here kw prev (c :: s)) eqn:Hw; simpl; [|by apply IH].
    replace (i + length kw =? i)%nat with (length kw =? 0)%nat
      by (destruct (length kw); simpl; [by rewrite Nat.add_0_r, Nat.eqb_refl|
          symmetry; apply Nat.eqb_neq; lia]).
    destruct (length kw) as [|n]; simpl.
    + by rewrite IH.
    + rewrite IH. do 2 f_equal. lia.
Qed.

Lemma occurrences_whole_word text kw :
  occurrences text kw = whole_word_count kw text.
Proof. apply finditer_keyword_length. Qed.

(** The text [extract_text] returns is in lower case. *)
Lemma extract_text_lowered w filepath :
  ∃ raw, extract_text w filepath = py_lower raw.
Proof. unfold extract_text. by eexists. Qed.

(** C6.  For a filter built by [__init__] and a text in lower case, as
    [extract_text] returns it, the count [analyze_resume] records for a
    keyword of either list is the number of whole-word occurrences of the
    keyword, lowered and taken as a literal string, in the text.  A
    document that says "Python" counts once for the keyword "python"; one
    that only says "pythonic" counts zero; the point of "Node.js" stands
    for itself and not for any character. *)
Theorem keyword_counts_are_whole_word_counts :
  (∀ job mandatory_keywords optional_keywords minimum now raw a kw,
     let self := init job mandatory_keywords optional_keywords minimum in
     analyze_resume self now (py_lower raw) = Return a →
     kw ∈ mandatory_keywords ++ optional_keywords →
     keyword_counts a !! py_lower kw
     = Some (whole_word_count (py_lower kw) (py_lower raw)))
  ∧ (∀ w filepath, ∃ raw, extract_text w filepath = py_lower raw)
  ∧ (∀ now,
       let self := init [] [str "python"] [str "Node.js"] 1%Q in
       let counts paragraph :=
         match analyze_resume self now
                 (extract_text (one_docx (str "cv.docx") paragraph)
                    (str "cv.docx")) with
         | Return a => (keyword_counts a !! str "python",
                        keyword_counts a !! str "node.js")
         | Raise _ => (None, None)
         end in
       counts (str "I know Python and Node.js.") = (Some 1%nat, Some 1%nat)
       ∧ counts (str "pythonic code for nodexjs") = (Some 0%nat, Some 0%nat)).
Proof.
  split; [|split].
  - intros job mk ok minimum now raw a kw self Ha Hkw.
    rewrite analyze_resume_eq in Ha.
    destruct (exp_bonus _ _ _ _); [|done]. injection Ha as <-. simpl.
    rewrite final_counts_lookup; [by rewrite occurrences_whole_word|].
    simpl. rewrite <- fmap_app. by apply list_elem_of_fmap_2.
  - apply extract_text_lowered.
  - intros now. split; by vm_compute.
Qed.

(** ** The date ranges *)

(** C2.  The text has the ranges "jan 2018 - dec 2019" and
    "mar 2020 - present" and no explicit statement.  The second range is
    not among the matches of [date_pattern], the word "present" is a match
    of its own and does not split in two, and the result is the duration
    of the first range alone, 699 days, whatever the clock reads. *)
Theorem present_range_is_not_counted now :
  let text := str "jan 2018 - dec 2019" ++ [newline] ++ str "mar 2020 - present" in
  findall true date_pattern text = [str "jan 2018 - dec 2019"; str "present"]
  ∧ range_duration now (str "present") = None
  ∧ ∃ e, extract_experience now text = Some e ∧ (e == 699 / 365.25)%Q.
Proof.
  split; [by vm_compute|]. split; [by vm_compute|].
  eexists. split; by vm_compute.
Qed.

Lemma date_fold_sum now ranges total n :
  ((foldl (date_step now) (total, n) ranges).1
   == total + sum_Q (List.filter (Qltb 0) (omap (range_duration now) ranges)))%Q
  ∧ (foldl (date_step now) (total, n) ranges).2
    = (n + length (List.filter (Qltb 0) (omap (range_duration now) ranges)))%nat.
Proof.
  revert total n. induction ranges as [|r ranges IH]; intros total n; simpl.
  - split; [by rewrite Qplus_0_r|lia].
  - unfold date_step at 2 4.
    destruct (range_duration now r) as [dur|]; simpl; [|apply IH].
    destruct (Qltb 0 dur); simpl; [|apply IH].
    destruct (IH (total + dur)%Q (S n)) as [-> ->].
    split; [symmetry; apply Qplus_assoc|by rewrite Nat.add_succ_r].
Qed.

Lemma explicit_experience_None ps text :
  (∀ p, p ∈ ps → finditer false p text = []) →
  explicit_experience ps text = None.
Proof.
  induction ps as [|p ps IH]; intros H; simpl; [done|].
  rewrite (H p) by left. simpl. apply IH. intros p' Hp'. apply H. by right.
Qed.

(** C5.  When no pattern of an explicit statement has a match, the result
    is the sum of the durations of the valid ranges of the text, each the
    days from start to end over 365.25 and positive; it is absent exactly
    when there is no valid range.  Two ranges of 699 and 457 days give
    1156 / 365.25 years, not the mean of the two. *)
Theorem date_ranges_are_summed :
  (∀ now text,
     (∀ p, p ∈ patterns → finditer false p text = []) →
     match extract_experience now text with
     | Some total =>
         positive_durations now text ≠ []
         ∧ (total == sum_Q (positive_durations now text))%Q
     | None => positive_durations now text = []
     end)
  ∧ (∀ now,
       let text := str "jan 2018 - dec 2019, mar 2020 - jun 2021" in
       positive_durations now text = [(699 / 365.25)%Q; (457 / 365.25)%Q]
       ∧ ∃ total, extract_experience now text = Some total
                  ∧ (total == (699 + 457) / 365.25)%Q).
Proof.
  split.
  - intros now text Hnone. unfold extract_experience.
    rewrite explicit_experience_None by done.
    pose proof (date_fold_sum now (findall true date_pattern text) 0 0) as [Ht Hn].
    fold (positive_durations now text) in Ht, Hn.
    destruct (foldl _ _ _) as [total n]. simpl in Ht, Hn. subst n.
    destruct (positive_durations now text) as [|dur ds]; simpl; [done|].
    split; [done|]. by rewrite Ht, Qplus_0_l.
  - intros now. split; [by vm_compute|].
    eexists. split; by vm_compute.
Qed.

(** ** The first group of an explicit statement is a number *)

Lemma derives_other_groups icase n r w g g' :
  closes n r = false → derives icase r w g g' →
  lookup_group n g' = lookup_group n g.
Proof.
  revert w g g'.
  induction r as [|a|a lo hi|r1 IH1 r2 IH2|r1 IH1 r2 IH2|k r IH|];
    intros w g g' Hc Hd; simpl in Hc, Hd.
  - by destruct Hd as [_ ->].
  - by destruct Hd as (c & _ & _ & ->).
  - by destruct Hd as (_ & _ & _ & ->).
  - apply orb_false_iff in Hc as [Hc1 Hc2].
    destruct Hd as (w1 & w2 & g1 & _ & Hd1 & Hd2).
    rewrite (IH2 _ _ _ Hc2 Hd2). by eapply IH1.
  - apply orb_false_iff in Hc as [Hc1 Hc2].
    destruct Hd as [Hd|Hd]; [by eapply IH1|by eapply IH2].
  - apply orb_false_iff in Hc as [Hk Hc].
    destruct Hd as (g1 & Hd & ->). simpl. rewrite Hk. by eapply IH.
  - by destruct Hd as [_ ->].
Qed.

Lemma derives_group_body icase n r x w g g' :
  group_body n r = Some x → derives icase r w g g' →
  ∃ wx gx gx', lookup_group n g' = Some wx ∧ derives icase x wx gx gx'.
Proof.
  revert w g g'.
  induction r as [|a|a lo hi|r1 IH1 r2 IH2|r1 IH1 r2 IH2|k r IH|];
    intros w g g' Hb Hd; simpl in Hb, Hd; try done.
  - destruct Hd as (w1 & w2 & g1 & _ & Hd1 & Hd2).
    destruct (closes n r2) eqn:Hc; [by eapply IH2|].
    destruct (IH1 _ _ _ Hb Hd1) as (wx & gx & gx' & Hl & Hx).
    exists wx, gx, gx'. split; [|done].
    by rewrite (derives_other_groups _ _ _ _ _ _ Hc Hd2).
  - destruct (k =? n)%nat eqn:Hk; [|done]. injection Hb as ->.
    destruct Hd as (g1 & Hd & ->). exists w, g, g1. simpl. by rewrite Hk.
Qed.

Lemma digits_value_is_Some ds acc :
  Forall (λ c, is_digit c = true) ds → is_Some (digits_value acc ds).
Proof.
  intros H. revert acc. induction H as [|c ds Hc _ IH]; intros acc; simpl.
  - by eexists.
  - unfold is_digit, digit_value in *. destruct (classify c); try done.
    simpl. apply IH.
Qed.

Lemma break_at_digits ds s :
  Forall (λ c, is_digit c = true) ds →
  break_at full_stop (ds ++ s)
  = ((ds ++ (break_at full_stop s).1), (break_at full_stop s).2).
Proof.
  induction 1 as [|c ds Hc _ IH]; simpl; [by destruct (break_at _ _)|].
  destruct (c =? full_stop) eqn:Hcs.
  - apply N.eqb_eq in Hcs as ->. by vm_compute in Hc.
  - rewrite IH. by destruct (break_at full_stop s).
Qed.

Lemma digit_set_matches icase c :
  atom_matches icase digit c = true → is_digit c = true.
Proof. simpl. by rewrite orb_false_r. Qed.

Lemma py_float_parts ip (fp : option pystr) :
  ip ≠ [] → Forall (λ c, is_digit c = true) (ip ++ default [] fp) →
  is_Some (py_float (ip ++ match fp with
                           | Some f => full_stop :: f
                           | None => []
                           end)).
Proof.
  intros Hne Hds. unfold py_float.
  rewrite break_at_digits by (by apply Forall_app in Hds as [? _]).
  assert (break_at full_stop
            match fp with Some f => full_stop :: f | None => [] end
          = ([], fp)) as ->.
  { by destruct fp as [f|]. }
  cbn [fst snd]. rewrite app_nil_r.
  destruct (ip ++ default [] fp) as [|c ds] eqn:Heq.
  { by destruct ip. }
  destruct (digits_value_is_Some (c :: ds) 0 Hds) as [n Hn].
  rewrite Hn. by eexists.
Qed.

Lemma py_float_number w g g' :
  derives false number_re w g g' → is_Some (py_float w).
Proof.
  intros (w1 & w' & g1 & -> & (Hw1 & Hlen & _) & Hd). simpl in Hd.
  destruct Hd as (w2 & w'' & g2 & -> & (Hw2 & _ & Hmax & _) & Hd).
  destruct Hd as (w3 & w4 & g3 & -> & (Hw3 & _) & (-> & _)).
  rewrite app_nil_r.
  assert (Forall (λ c, is_digit c = true) w1) as Hd1.
  { eapply Forall_impl; [exact Hw1|]. apply (digit_set_matches false). }
  assert (Forall (λ c, is_digit c = true) w3) as Hd3.
  { eapply Forall_impl; [exact Hw3|]. apply (digit_set_matches false). }
  assert (w1 ≠ []) as Hne by (intros ->; simpl in Hlen; lia).
  specialize (Hmax 1%nat eq_refl).
  destruct w2 as [|c w2].
  - simpl. rewrite <- (app_nil_r (w1 ++ w3)).
    apply (py_float_parts (w1 ++ w3) None).
    + by destruct w1.
    + simpl. rewrite app_nil_r. by apply Forall_app.
  - destruct w2; [|simpl in Hmax; lia].
    apply Forall_inv in Hw2. apply N.eqb_eq in Hw2 as ->.
    apply (py_float_parts w1 (Some w3)); [done|]. by apply Forall_app.
Qed.

Lemma py_float_plus_digits w g g' :
  derives false (plus digit) w g g' → is_Some (py_float w).
Proof.
  intros (Hw & Hlen & _).
  rewrite <- (app_nil_r w). apply (py_float_parts w None).
  - intros ->. simpl in Hlen. lia.
  - simpl. rewrite app_nil_r. eapply Forall_impl; [exact Hw|].
    apply (digit_set_matches false).
Qed.

Lemma patterns_group_body p :
  p ∈ patterns →
  group_body 1 p = Some number_re ∨ group_body 1 p = Some (plus digit).
Proof.
  unfold patterns. rewrite !elem_of_cons, elem_of_nil.
  intros [->|[->|[->|[->|[->|[]]]]]]; vm_compute; auto.
Qed.

Lemma finditer_patterns_float p text m :
  p ∈ patterns → m ∈ finditer false p text →
  ∃ w q, m_group 1 m = Some w ∧ py_float w = Some q.
Proof.
  intros Hp Hm. apply finditer_derives in Hm.
  destruct (patterns_group_body p Hp) as [Hb|Hb];
    destruct (derives_group_body _ _ _ _ _ _ _ Hb Hm) as (w & gx & gx' & Hw & Hd);
    exists w.
  - destruct (py_float_number _ _ _ Hd) as [q Hq]. by exists q.
  - destruct (py_float_plus_digits _ _ _ Hd) as [q Hq]. by exists q.
Qed.

Lemma explicit_experience_first ps text i pattern m w q :
  ps !! i = Some pattern →
  (∀ j p, (j < i)%nat → ps !! j = Some p → finditer false p text = []) →
  head (finditer false pattern text) = Some m →
  m_group 1 m = Some w → py_float w = Some q →
  explicit_experience ps text = Some q.
Proof.
  revert i. induction ps as [|p ps IH]; intros i Hi Hbefore Hm Hw Hq; [done|].
  destruct i as [|i]; simpl in *.
  - injection Hi as ->. destruct (finditer false pattern text) as [|m' ms]; [done|].
    injection Hm as ->. simpl. by rewrite Hw; simpl; rewrite Hq.
  - rewrite (Hbefore O p) by (done || lia). simpl.
    apply (IH i); try done.
    intros j p' Hj Hp'. apply (Hbefore (S j) p'); [lia|done].
Qed.

(** C4.  The patterns of an explicit statement are tried in the order of
    the list: when no earlier pattern has a match, the first match of the
    pattern decides, its first group converts, and [extract_experience]
    returns that number whatever the later patterns and the date ranges
    would give.  The text "experience: 5 years" gives 5, also when a date
    range follows it. *)
Theorem first_explicit_pattern_wins :
  (∀ now text i pattern m,
     patterns !! i = Some pattern →
     (∀ j p, (j < i)%nat → patterns !! j = Some p → finditer false p text = []) →
     head (finditer false pattern text) = Some m →
     ∃ w q, m_group 1 m = Some w ∧ py_float w = Some q
            ∧ extract_experience now text = Some q)
  ∧ (∀ now,
       extract_experience now (str "experience: 5 years") = Some 5%Q
       ∧ extract_experience now
           (str "experience: 5 years, jan 2010 - dec 2019") = Some 5%Q).
Proof.
  split.
  - intros now text i pattern m Hi Hbefore Hm.
    destruct (finditer_patterns_float pattern text m) as (w & q & Hw & Hq).
    { by eapply list_elem_of_lookup_2. }
    { by apply head_Some_elem_of. }
    exists w, q. split; [done|]. split; [done|].
    unfold extract_experience.
    by rewrite (explicit_experience_first _ _ _ _ _ _ _ Hi Hbefore Hm Hw Hq).
  - intros now. split; by vm_compute.
Qed.

(** ** The clock is never read

    A match of [date_pattern] is either a whole range, which ends with the
    digits of a year, or the word "present" alone, which has no dash.  In
    the first case the end date is not "present", in the second the match
    does not split in two: the branch that reads the clock is dead. *)

Lemma derives_lit icase kw w g g' :
  derives icase (lit_text kw) w g g' →
  Forall2 (λ p c, chr_matches icase p c = true) kw w ∧ g' = g.
Proof.
  revert w g. induction kw as [|p kw IH]; intros w g; simpl.
  - intros [-> ->]. by split; [constructor|].
  - intros (w1 & w2 & g1 & -> & (c & -> & Hc & ->) & Hd).
    apply IH in Hd as [Hd ->]. split; [|done]. by constructor.
Qed.

Lemma dash_inv c :
  atom_matches false dash c = true → c = hyphen ∨ c = en_dash ∨ c = em_dash.
Proof.
  simpl. unfold chr_matches. rewrite !orb_true_iff, !N.eqb_eq.
  intros [?|[?|[?|?]]]; auto. done.
Qed.

Lemma Forall2_transfer {A B} (R : A → B → Prop) (P : B → Prop) l k :
  Forall2 R l k → (∀ x y, x ∈ l → R x y → P y) → Forall P k.
Proof.
  induction 1 as [|x y l k Hxy _ IH]; intros HP; constructor.
  - apply (HP x); [by left|done].
  - apply IH. intros x' y' Hx'. apply HP. by right.
Qed.

Lemma present_dashless w g g' :
  derives true (seqs [Bnd; lit "present"; Bnd]) w g g' → dashless w.
Proof.
  cbn [seqs foldr derives].
  intros (w1 & ? & ? & -> & (-> & _) & w2 & ? & ? & -> & Hd & Hrest).
  destruct Hrest as (w3 & ? & ? & -> & (-> & _) & (-> & _)).
  apply derives_lit in Hd as [Hd _]. simpl. rewrite app_nil_r.
  eapply Forall2_transfer; [exact Hd|].
  intros p c Hp Hc. apply not_true_iff_false. intros Hdash.
  unfold chr_matches in Hc. apply N.eqb_eq in Hc.
  change (str "present") with [112; 114; 101; 115; 101; 110; 116] in Hp.
  rewrite !elem_of_cons, elem_of_nil in Hp.
  destruct (dash_inv c Hdash) as [->|[->| ->]];
    destruct Hp as [->|[->|[->|[->|[->|[->|[->|[]]]]]]]];
    by vm_compute in Hc.
Qed.

Lemma ends_with_digit_app a b : ends_with_digit b → ends_with_digit (a ++ b).
Proof.
  intros (pre & c & -> & Hc). exists (a ++ pre), c.
  by rewrite (assoc_L (++)).
Qed.

Lemma month_year_ends_with_digit w g g' :
  derives true month_year_re w g g' → ends_with_digit w.
Proof.
  unfold month_year_re, times. cbn [seqs foldr derives].
  intros (w1 & ? & ? & -> & _ & w2 & ? & ? & -> & _ & Hd).
  destruct Hd as (w3 & ? & ? & -> & _ & w4 & ? & ? & -> & Hd & (-> & _)).
  destruct Hd as (Hw4 & Hlen & _).
  do 3 apply ends_with_digit_app. rewrite app_nil_r.
  destruct w4 as [|c w4 _] using rev_ind; [simpl in Hlen; lia|].
  exists w4, c. split; [done|].
  apply Forall_app in Hw4 as [_ Hc]. apply Forall_inv in Hc.
  by apply (digit_set_matches true).
Qed.

Lemma range_ends_with_digit w g g' :
  derives true (seqs [month_year_re; star white; One dash; star white; month_year_re])
    w g g' →
  ends_with_digit w.
Proof.
  cbn [seqs foldr derives].
  intros (w1 & ? & ? & -> & _ & w2 & ? & ? & -> & _ & Hd).
  destruct Hd as (w3 & ? & ? & -> & _ & w4 & ? & ? & -> & _ & Hd).
  destruct Hd as (w5 & ? & ? & -> & Hd & (-> & _)).
  do 4 apply ends_with_digit_app. rewrite app_nil_r.
  by eapply month_year_ends_with_digit.
Qed.

Lemma date_range_shape text dr :
  dr ∈ findall true date_pattern text → ends_with_digit dr ∨ dashless dr.
Proof.
  unfold findall. intros (m & -> & Hm)%list_elem_of_fmap.
  apply finditer_derives in Hm. destruct Hm as [Hm|Hm].
  - left. by eapply range_ends_with_digit.
  - right. by eapply present_dashless.
Qed.

Lemma rmatch_split_needs_dash st st' :
  st' ∈ rmatch false split_pattern st →
  ∃ c, c ∈ ms_rest st ∧ atom_matches false dash c = true.
Proof.
  intros (w & Hs & Hd)%rmatch_sound. revert Hd.
  unfold split_pattern. cbn [seqs foldr derives].
  intros (w1 & ? & ? & -> & _ & w2 & ? & ? & -> & (c & -> & Hc & _) & _).
  exists c. split; [|done]. rewrite Hs.
  apply elem_of_app. left. apply elem_of_app. right.
  apply elem_of_app. left. by left.
Qed.

Lemma match_here_split_dashless adv i prev s :
  dashless s → match_here false split_pattern adv i prev s = None.
Proof.
  intros Hs. unfold match_here.
  destruct (head _) as [st|] eqn:Hhd; [|done].
  apply head_Some_elem_of, list_elem_of_filter in Hhd as [_ Hin].
  apply rmatch_split_needs_dash in Hin as (c & Hc & Hdash). simpl in Hc.
  unfold dashless in Hs. rewrite Forall_forall in Hs.
  rewrite (Hs c Hc) in Hdash. done.
Qed.

Lemma finditer_from_nil icase r i prev s skip :
  (∀ adv i' prev' s', s' `suffix_of` s →
     match_here icase r adv i' prev' s' = None) →
  finditer_from icase r i prev s skip = [].
Proof.
  revert i prev skip. induction s as [|c s IH]; intros i prev skip Hs; simpl.
  - destruct skip; [|done]. by rewrite Hs.
  - assert (∀ adv i' prev' s', s' `suffix_of` s →
              match_here icase r adv i' prev' s' = None) as Hs'.
    { intros adv i' prev' s' Hsuf. apply Hs. by apply suffix_cons_r. }
    destruct skip; [|by apply IH].
    rewrite Hs by done. by apply IH.
Qed.

Lemma finditer_split_dashless i prev s skip :
  dashless s → finditer_from false split_pattern i prev s skip = [].
Proof.
  intros Hs. apply finditer_from_nil. intros adv i' prev' s' [k ->].
  apply match_here_split_dashless. unfold dashless in *.
  by apply Forall_app in Hs as [_ ?].
Qed.

Lemma split_at_last s k ms :
  ∃ k', last (split_at s k ms) = Some (drop k' s).
Proof.
  revert k. induction ms as [|m ms IH]; intros k; simpl.
  - by exists k.
  - destruct (IH (m_end m)) as [k' Hk']. exists k'.
    destruct (split_at s (m_end m) ms) eqn:Hsp; [done|]. by rewrite <- Hk'.
Qed.

Lemma lstrip_snoc s c :
  is_space c = false → ∃ s', lstrip (s ++ [c]) = s' ++ [c].
Proof.
  intros Hc. induction s as [|x s IH]; simpl.
  - rewrite Hc. by exists [].
  - destruct (is_space x); [done|]. by exists (x :: s).
Qed.

Lemma rstrip_snoc s c : is_space c = false → rstrip (s ++ [c]) = s ++ [c].
Proof.
  intros Hc. unfold rstrip. rewrite reverse_snoc. simpl. rewrite Hc.
  by rewrite reverse_cons, reverse_involutive.
Qed.

Lemma digit_not_space c : is_digit c = true → is_space c = false.
Proof. unfold is_digit, is_space. by destruct (classify c). Qed.

Lemma digit_lower c : is_digit c = true → lower_cp c = [c].
Proof. unfold is_digit, lower_cp. by destruct (classify c). Qed.

(** An end date taken from a text that ends with a digit is never the
    word "present". *)
Lemma end_date_not_present s k :
  ends_with_digit s →
  text_eqb (py_lower (py_strip (drop k s))) (str "present") = false.
Proof.
  intros (pre & c & -> & Hc). apply bool_decide_eq_false.
  destruct (decide (k ≤ length pre)%nat) as [Hk|Hk].
  - rewrite drop_app_le by done.
    destruct (lstrip_snoc (drop k pre) c) as [s' Hs']; [by apply digit_not_space|].
    unfold py_strip. rewrite Hs', rstrip_snoc by (by apply digit_not_space).
    unfold py_lower. rewrite bind_app. simpl. rewrite app_nil_r, digit_lower by done.
    change (str "present") with (str "presen" ++ [116]).
    intros [_ Heq]%app_inj_tail. subst c. by vm_compute in Hc.
  - rewrite drop_ge by (rewrite length_app; simpl; lia). done.
Qed.

Lemma range_duration_clock now1 now2 dr :
  ends_with_digit dr ∨ dashless dr →
  range_duration now1 dr = range_duration now2 dr.
Proof.
  intros Hdr. unfold range_duration, re_split, finditer.
  destruct Hdr as [Hdr|Hdr].
  - destruct (split_at_last dr 0 (finditer_from false split_pattern 0 None dr 0))
      as [k Hk].
    destruct (split_at dr 0 _) as [|date0 [|date1 [|]]]; try done.
    simpl in Hk. injection Hk as ->.
    by rewrite end_date_not_present.
  - by rewrite finditer_split_dashless.
Qed.

Lemma date_fold_clock now1 now2 ranges acc :
  (∀ dr, dr ∈ ranges → range_duration now1 dr = range_duration now2 dr) →
  foldl (date_step now1) acc ranges = foldl (date_step now2) acc ranges.
Proof.
  revert acc. induction ranges as [|dr ranges IH]; intros acc H; simpl; [done|].
  unfold date_step at 2 4. rewrite (H dr) by left.
  apply IH. intros dr' Hdr'. apply H. by right.
Qed.

Lemma extract_experience_clock now1 now2 text :
  extract_experience now1 text = extract_experience now2 text.
Proof.
  unfold extract_experience.
  destruct (explicit_experience patterns text); [done|].
  rewrite (date_fold_clock now1 now2); [done|].
  intros dr Hdr. apply range_duration_clock. by eapply date_range_shape.
Qed.

(** C9.  Two runs of [analyze_resume] on the same filter and the same
    text return the same result, scores included, whatever the clock
    reads at either run. *)
Theorem analyze_resume_deterministic self now1 now2 text :
  analyze_resume self now1 text = analyze_resume self now2 text.
Proof.
  by rewrite !analyze_resume_eq, (extract_experience_clock now1 now2).
Qed.

(** * Further properties of the code *)

(** ** Stripped text *)

Lemma lstrip_drop s : ∃ k, lstrip s = drop k s.
Proof.
  induction s as [|c s [k IH]]; simpl; [by exists O|].
  destruct (is_space c); [by exists (S k)|by exists O].
Qed.

Lemma lstrip_head s c s' : lstrip s = c :: s' → is_space c = false.
Proof.
  induction s as [|x s IH]; simpl; [done|].
  destruct (is_space x) eqn:Hx; [done|]. by intros [= <- _].
Qed.

Lemma lstrip_id c s : is_space c = false → lstrip (c :: s) = c :: s.
Proof. intros Hc. simpl. by rewrite Hc. Qed.

Lemma rstrip_take s : ∃ k, rstrip s = take k s.
Proof.
  unfold rstrip. destruct (lstrip_drop (reverse s)) as [k ->].
  exists (length s - k)%nat.
  by rewrite drop_reverse, reverse_involutive.
Qed.

Lemma rstrip_cons_head c s :
  is_space c = false → ∃ s', rstrip (c :: s) = c :: s'.
Proof.
  intros Hc. unfold rstrip. rewrite reverse_cons.
  destruct (lstrip_snoc (reverse s) c Hc) as [y ->].
  rewrite reverse_snoc. by eexists.
Qed.

Lemma rstrip_last s c :
  last (rstrip s) = Some c → is_space c = false.
Proof.
  unfold rstrip. rewrite last_reverse.
  destruct (lstrip (reverse s)) as [|x t] eqn:Hl; [done|].
  simpl. intros [= ->]. by eapply lstrip_head.
Qed.

(** What [strip] returns is empty, or begins and ends with a character
    that is not white space. *)
Lemma py_strip_shape s :
  py_strip s = []
  ∨ ∃ h l, head (py_strip s) = Some h ∧ is_space h = false
           ∧ last (py_strip s) = Some l ∧ is_space l = false.
Proof.
  unfold py_strip. destruct (lstrip s) as [|h t] eqn:Hl; [by left|].
  right. pose proof (lstrip_head _ _ _ Hl) as Hh.
  destruct (rstrip_cons_head h t Hh) as [t' Ht'].
  destruct (last (h :: t')) as [l|] eqn:Hlast; [|by apply last_None in Hlast].
  exists h, l. rewrite Ht'. repeat split; try done.
  rewrite <- Ht' in Hlast. by eapply rstrip_last.
Qed.

Lemma py_strip_elem s c : c ∈ py_strip s → c ∈ s.
Proof.
  unfold py_strip. destruct (rstrip_take (lstrip s)) as [k ->].
  destruct (lstrip_drop s) as [j ->].
  intros H. eapply elem_of_sublist; [exact H|].
  etrans; [apply sublist_take|apply sublist_drop].
Qed.

Lemma py_strip_length s : (length (py_strip s) ≤ length s)%nat.
Proof.
  unfold py_strip. destruct (rstrip_take (lstrip s)) as [k ->].
  destruct (lstrip_drop s) as [j ->].
  rewrite length_take, length_drop. lia.
Qed.

Lemma py_strip_fixed s h l :
  head s = Some h → is_space h = false →
  last s = Some l → is_space l = false →
  py_strip s = s.
Proof.
  intros Hh Hhs Hl Hls. unfold py_strip.
  destruct s as [|x s]; [done|]. injection Hh as ->.
  rewrite lstrip_id by done.
  apply last_Some in Hl as [t Ht]. rewrite Ht. by apply rstrip_snoc.
Qed.

Lemma py_strip_idemp s : py_strip (py_strip s) = py_strip s.
Proof.
  destruct (py_strip_shape s) as [->|(h & l & Hh & Hhs & Hl & Hls)]; [done|].
  by eapply py_strip_fixed.
Qed.

(** ** Where the matches of a scan lie *)

Lemma finditer_from_located icase r pre s skip m :
  m ∈ finditer_from icase r (length pre) (last pre) s skip →
  ∃ adv pre' s', pre ++ s = pre' ++ s'
    ∧ match_here icase r adv (length pre') (last pre') s' = Some m.
Proof.
  revert pre skip. induction s as [|c s IH]; intros pre skip Hin.
  - simpl in Hin. destruct skip; [|by apply elem_of_nil in Hin].
    destruct (match_here icase r false (length pre) (last pre) []) as [m1|] eqn:H1;
      [|by apply elem_of_nil in Hin].
    destruct (m_end m1 =? length pre)%nat.
    + apply elem_of_cons in Hin as [->|Hin]; [by exists false, pre, []|].
      destruct (match_here icase r true (length pre) (last pre) []) as [m2|] eqn:H2;
        [|by apply elem_of_nil in Hin].
      apply list_elem_of_singleton in Hin as ->. by exists true, pre, [].
    + apply list_elem_of_singleton in Hin as ->. by exists false, pre, [].
  - assert (Hnext : ∀ k, m ∈ finditer_from icase r (S (length pre)) (Some c) s k →
      ∃ adv pre' s', pre ++ c :: s = pre' ++ s'
        ∧ match_here icase r adv (length pre') (last pre') s' = Some m).
    { intros k Hk. destruct (IH (pre ++ [c]) k) as (adv & pre' & s' & Heq & Hm).
      - by rewrite length_app, last_snoc, Nat.add_1_r.
      - exists adv, pre', s'. split; [|done]. by rewrite <- Heq, <- (assoc_L (++)). }
    simpl in Hin. destruct skip; [|by eauto].
    destruct (match_here icase r false (length pre) (last pre) (c :: s))
      as [m1|] eqn:H1; [|by eauto].
    destruct (m_end m1 =? length pre)%nat.
    + apply elem_of_cons in Hin as [->|Hin]; [by exists false, pre, (c :: s)|].
      destruct (match_here icase r true (length pre) (last pre) (c :: s))
        as [m2|] eqn:H2; [|by eauto].
      apply elem_of_cons in Hin as [->|Hin]; [by exists true, pre, (c :: s)|eauto].
    + apply elem_of_cons in Hin as [->|Hin]; [by exists false, pre, (c :: s)|eauto].
Qed.

Lemma finditer_located icase r text m :
  m ∈ finditer icase r text →
  ∃ adv pre s, text = pre ++ s
    ∧ match_here icase r adv (length pre) (last pre) s = Some m.
Proof. intros Hin. by apply (finditer_from_located icase r [] text 0). Qed.

(** A match is a part of the text, at the place its span tells. *)
Lemma finditer_span icase r text m :
  m ∈ finditer icase r text →
  ∃ pre post, text = pre ++ m_group0 m ++ post
    ∧ m_start m = length pre
    ∧ m_end m = (length pre + length (m_group0 m))%nat.
Proof.
  intros (adv & pre & s & -> & Hm)%finditer_located.
  apply match_here_Some in Hm as (w & rest & -> & _ & Hm & _).
  exists pre, rest. by rewrite Hm.
Qed.

(** ** A text without digits has no experience *)

Lemma derives_group_infix icase n r x w g g' :
  group_body n r = Some x → derives icase r w g g' →
  ∃ wx gx gx' a b, lookup_group n g' = Some wx ∧ derives icase x wx gx gx'
                   ∧ w = a ++ wx ++ b.
Proof.
  revert w g g'.
  induction r as [|a|a lo hi|r1 IH1 r2 IH2|r1 IH1 r2 IH2|k r IH|];
    intros w g g' Hb Hd; simpl in Hb, Hd; try done.
  - destruct Hd as (w1 & w2 & g1 & -> & Hd1 & Hd2).
    destruct (closes n r2) eqn:Hc.
    + destruct (IH2 _ _ _ Hb Hd2) as (wx & gx & gx' & a & b & Hl & Hx & ->).
      exists wx, gx, gx', (w1 ++ a), b. by rewrite <- (assoc_L (++)).
    + destruct (IH1 _ _ _ Hb Hd1) as (wx & gx & gx' & a & b & Hl & Hx & ->).
      exists wx, gx, gx', a, (b ++ w2). split; [|split; [done|]].
      * by rewrite (derives_other_groups _ _ _ _ _ _ Hc Hd2).
      * by rewrite <- !(assoc_L (++)).
  - destruct (k =? n)%nat eqn:Hk; [|done]. injection Hb as ->.
    destruct Hd as (g1 & Hd & ->). exists w, g, g1, [], [].
    simpl. by rewrite Hk, app_nil_r.
Qed.

Lemma pattern_match_has_digit p w g :
  p ∈ patterns → derives false p w [] g → ∃ c, c ∈ w ∧ is_digit c = true.
Proof.
  intros Hp Hd.
  assert (∀ wx gx gx', derives false (plus digit) wx gx gx' →
            ∃ c, c ∈ wx ∧ is_digit c = true) as Hplus.
  { intros wx gx gx' (Hw & Hlen & _).
    destruct wx as [|c wx]; [simpl in Hlen; lia|].
    exists c. split; [by left|].
    apply Forall_inv in Hw. by apply (digit_set_matches false). }
  destruct (patterns_group_body p Hp) as [Hb|Hb];
    destruct (derives_group_infix _ _ _ _ _ _ _ Hb Hd)
      as (wx & gx & gx' & a & b & _ & Hx & ->).
  - destruct Hx as (w1 & w' & g1 & -> & Hx & _).
    destruct (Hplus _ _ _ Hx) as (c & Hc & Hdig). exists c. split; [|done].
    apply elem_of_app. right. apply elem_of_app. left.
    apply elem_of_app. by left.
  - destruct (Hplus _ _ _ Hx) as (c & Hc & Hdig). exists c. split; [|done].
    apply elem_of_app. right. apply elem_of_app. by left.
Qed.

Lemma digit_free_no_statement text p :
  digit_free text → p ∈ patterns → finditer false p text = [].
Proof.
  intros Hfree Hp.
  destruct (finditer false p text) as [|m ms] eqn:Hf; [done|].
  assert (m ∈ finditer false p text) as Hm by (rewrite Hf; left).
  pose proof (finditer_derives _ _ _ _ Hm) as Hd.
  destruct (pattern_match_has_digit _ _ _ Hp Hd) as (c & Hc & Hdig).
  destruct (finditer_span _ _ _ _ Hm) as (pre & post & Htext & _).
  unfold digit_free in Hfree. rewrite Forall_forall in Hfree.
  rewrite (Hfree c) in Hdig; [done|].
  rewrite Htext. apply elem_of_app. right. apply elem_of_app. by left.
Qed.

Lemma range_duration_dashless now dr : dashless dr → range_duration now dr = None.
Proof.
  intros Hdr. unfold range_duration, re_split, finditer.
  by rewrite finditer_split_dashless.
Qed.

Lemma date_fold_skip now ranges acc :
  (∀ dr, dr ∈ ranges → range_duration now dr = None) →
  foldl (date_step now) acc ranges = acc.
Proof.
  revert acc. induction ranges as [|dr ranges IH]; intros acc H; simpl; [done|].
  unfold date_step at 2. rewrite (H dr) by left.
  apply IH. intros dr' Hdr'. apply H. by right.
Qed.

(** X1.  A text without any digit, the empty text among them, has no
    experience to extract: no explicit statement and no date range. *)
Theorem no_digit_no_experience now text :
  digit_free text → extract_experience now text = None.
Proof.
  intros Hfree. unfold extract_experience.
  rewrite explicit_experience_None
    by (intros p Hp; by apply digit_free_no_statement).
  rewrite date_fold_skip; [done|].
  intros dr Hdr. apply range_duration_dashless.
  destruct (date_range_shape _ _ Hdr) as [(pre & c & -> & Hc)|?]; [|done].
  unfold findall in Hdr. apply list_elem_of_fmap in Hdr as (m & Hm & Hin).
  destruct (finditer_span _ _ _ _ Hin) as (a & b & Htext & _).
  unfold digit_free in Hfree. rewrite Forall_forall in Hfree.
  rewrite (Hfree c) in Hc; [done|].
  rewrite Htext, <- Hm. apply elem_of_app. right. apply elem_of_app. left.
  apply elem_of_app. right. by left.
Qed.

Lemma date_fold_positive now ranges total n :
  (0 <= total)%Q → ((0 < n)%nat → (0 < total)%Q) →
  let acc := foldl (date_step now) (total, n) ranges in
  (0 < acc.2)%nat → (0 < acc.1)%Q.
Proof.
  revert total n. induction ranges as [|r ranges IH]; intros total n Ht Hn; [done|].
  simpl. unfold date_step at 2 4.
  destruct (range_duration now r) as [dur|]; [|by apply IH].
  destruct (Qltb 0 dur) eqn:Hd; [|by apply IH].
  apply Qltb_lt in Hd.
  assert (0 < total + dur)%Q as Hpos.
  { rewrite Qplus_comm, <- (Qplus_0_l 0). by apply Qplus_lt_le_compat. }
  apply IH; simpl; [by apply Qlt_le_weak|done].
Qed.

(** X2.  The experience [extract_experience] returns is never negative, and it
    is positive when it comes from the date ranges. *)
Theorem experience_sign now text e :
  extract_experience now text = Some e →
  (0 <= e)%Q
  ∧ ((∀ p, p ∈ patterns → finditer false p text = []) → (0 < e)%Q).
Proof.
  intros He. split; [by eapply extract_experience_nonneg|].
  intros Hnone. revert He. unfold extract_experience.
  rewrite explicit_experience_None by done.
  pose proof (date_fold_positive now (findall true date_pattern text) 0 0) as H.
  destruct (foldl _ _ _) as [total n]. simpl in H.
  destruct (0 <? n)%nat eqn:Hn; [|done]. intros [= <-].
  apply H; [done|lia|]. by apply Nat.ltb_lt.
Qed.

(** ** The dictionaries of an analysis *)

Lemma final_counts_lookup_all self text kw :
  final_counts self text !! kw
  = if bool_decide (kw ∈ mandatory self ++ optional self)
    then Some (occurrences text kw) else None.
Proof.
  unfold final_counts. rewrite !insert_fold_lookup, lookup_empty.
  destruct (decide (kw ∈ optional self)) as [Ho|Ho].
  - rewrite (bool_decide_eq_true_2 _ Ho).
    rewrite bool_decide_eq_true_2; [done|]. apply elem_of_app. by right.
  - rewrite (bool_decide_eq_false_2 _ Ho).
    destruct (decide (kw ∈ mandatory self)) as [Hm|Hm].
    + rewrite (bool_decide_eq_true_2 _ Hm).
      rewrite bool_decide_eq_true_2; [done|]. apply elem_of_app. by left.
    + rewrite (bool_decide_eq_false_2 _ Hm).
      rewrite bool_decide_eq_false_2; [done|].
      intros [?|?]%elem_of_app; done.
Qed.

Lemma analyze_resume_Return self now text a :
  analyze_resume self now text = Return a →
  missing_mandatory a
    = List.filter (λ kw, (occurrences text kw =? 0)%nat) (mandatory self)
  ∧ keyword_counts a = final_counts self text
  ∧ found_sections a
    = (foldl (mandatory_step text) ([], ∅, ∅) (mandatory self)).2
  ∧ experience a = extract_experience now text
  ∧ ∃ b, exp_bonus self (extract_experience now text)
           (mandatory_score_spec self text) (optional_score_spec self text)
         = Return b
         ∧ score a = (inject_Z (mandatory_score_spec self text)
                      + inject_Z (optional_score_spec self text) + b)%Q.
Proof.
  rewrite analyze_resume_eq.
  destruct (exp_bonus _ _ _ _) as [b|]; [|done].
  intros [= <-]. simpl. eauto 8.
Qed.

(** X3.  The dictionary of counts has an entry for the keywords of the two
    lists and for nothing else, and a keyword is reported missing exactly
    when it is mandatory and its entry is zero. *)
Theorem counts_and_missing_agree self now text a :
  analyze_resume self now text = Return a →
  (∀ kw, is_Some (keyword_counts a !! kw)
         ↔ kw ∈ mandatory self ++ optional self)
  ∧ (∀ kw, kw ∈ missing_mandatory a
           ↔ kw ∈ mandatory self ∧ keyword_counts a !! kw = Some O).
Proof.
  intros (Hmiss & Hcounts & _)%analyze_resume_Return.
  rewrite Hmiss, Hcounts. split; intros kw.
  - rewrite final_counts_lookup_all.
    destruct (decide (kw ∈ mandatory self ++ optional self)) as [Hin|Hin].
    + rewrite bool_decide_eq_true_2 by done. split; [done|]. by eexists.
    + rewrite bool_decide_eq_false_2 by done. split; [|done]. by intros [? ?].
  - rewrite list_elem_of_In, filter_In, <- list_elem_of_In, Nat.eqb_eq.
    rewrite final_counts_lookup_all. split.
    + intros [Hin H0]. split; [done|].
      rewrite bool_decide_eq_true_2; [by rewrite H0|].
      apply elem_of_app. by left.
    + intros [Hin H0]. split; [done|].
      rewrite bool_decide_eq_true_2 in H0; [by injection H0|].
      apply elem_of_app. by left.
Qed.

(** ** The snippets of an analysis *)

Lemma concat_replicate_nil {A} n : concat (replicate n (@nil A)) = [].
Proof. induction n; simpl; [done|]. by rewrite IHn. Qed.

Lemma mandatory_step_found text acc k :
  (mandatory_step text acc k).2
  = match snippets text k with
    | [] => acc.2
    | ss => <[k := default [] (acc.2 !! k) ++ ss]> acc.2
    end.
Proof.
  destruct acc as [[missing counts] found]. unfold mandatory_step, snippets.
  simpl. by destruct (finditer false (keyword_re k) text).
Qed.

Lemma listed_cons kw k kws :
  listed kw (k :: kws)
  = if decide (k = kw) then S (listed kw kws) else listed kw kws.
Proof.
  unfold listed, text_eqb. simpl.
  destruct (decide (k = kw)) as [->|Hne].
  - by rewrite bool_decide_eq_true_2.
  - by rewrite bool_decide_eq_false_2.
Qed.

Lemma mandatory_fold_found text kws acc kw :
  (foldl (mandatory_step text) acc kws).2 !! kw
  = match concat (replicate (listed kw kws) (snippets text kw)) with
    | [] => acc.2 !! kw
    | extra => Some (default [] (acc.2 !! kw) ++ extra)
    end.
Proof.
  revert acc. induction kws as [|k kws IH]; intros acc; [done|].
  change (foldl (mandatory_step text) acc (k :: kws))
    with (foldl (mandatory_step text) (mandatory_step text acc k) kws).
  rewrite IH, mandatory_step_found, listed_cons.
  destruct (decide (k = kw)) as [->|Hne].
  - change (replicate (S (listed kw kws)) (snippets text kw))
      with (snippets text kw :: replicate (listed kw kws) (snippets text kw)).
    change (concat (snippets text kw :: ?l))
      with (snippets text kw ++ concat l).
    destruct (snippets text kw) as [|s ss] eqn:Hs.
    + by rewrite concat_replicate_nil.
    + rewrite lookup_insert_eq. simpl.
      destruct (concat (replicate (listed kw kws) (s :: ss))); simpl.
      * by rewrite app_nil_r.
      * by rewrite <- !(assoc_L (++)).
  - destruct (snippets text k); [done|]. by rewrite lookup_insert_ne.
Qed.

Lemma listed_pos kw kws : (0 < listed kw kws)%nat ↔ kw ∈ kws.
Proof.
  unfold listed. induction kws as [|k kws IH]; simpl.
  - split; [lia|by intros ?%elem_of_nil].
  - unfold text_eqb at 1. destruct (decide (k = kw)) as [->|Hne].
    + rewrite bool_decide_eq_true_2 by done. simpl. split; [by left|lia].
    + rewrite bool_decide_eq_false_2 by done. rewrite IH, elem_of_cons.
      split; [by right|]. by intros [->|?].
Qed.

Lemma length_concat_replicate {A} n (l : list A) :
  length (concat (replicate n l)) = (n * length l)%nat.
Proof. induction n; simpl; [done|]. by rewrite length_app, IHn. Qed.

(** X4.  A keyword has snippets exactly when it is mandatory and has a match;
    it then has one snippet for each match, as many times over as the
    keyword is listed. *)
Theorem snippets_of_mandatory_matches self now text a kw :
  analyze_resume self now text = Return a →
  match found_sections a !! kw with
  | Some l =>
      kw ∈ mandatory self ∧ (0 < occurrences text kw)%nat
      ∧ l = concat (replicate (listed kw (mandatory self)) (snippets text kw))
      ∧ length l = (listed kw (mandatory self) * occurrences text kw)%nat
  | None => kw ∉ mandatory self ∨ occurrences text kw = O
  end.
Proof.
  intros (_ & _ & Hfound & _)%analyze_resume_Return.
  rewrite Hfound, mandatory_fold_found. simpl. rewrite lookup_empty.
  pose proof (length_concat_replicate (listed kw (mandatory self))
                (snippets text kw)) as Hlen.
  assert (length (snippets text kw) = occurrences text kw) as Hocc
    by (unfold snippets, occurrences; by rewrite length_fmap).
  rewrite Hocc in Hlen.
  destruct (concat _) as [|s l] eqn:Hc.
  - simpl in Hlen. destruct (decide (kw ∈ mandatory self)) as [Hin|?]; [|by left].
    apply listed_pos in Hin. right. nia.
  - simpl in Hlen. split; [|split; [|split]]; try done.
    + apply listed_pos. nia.
    + nia.
Qed.

Lemma keyword_match_fields kw text m :
  m ∈ finditer false (keyword_re kw) text →
  m_end m = (m_start m + length kw)%nat ∧ m_group0 m = kw.
Proof.
  intros (adv & pre & s & _ & Hm)%finditer_located.
  rewrite match_here_keyword in Hm.
  destruct (_ && _); [|done]. by injection Hm as <-.
Qed.

(** X5.  A snippet keeps at most fifty characters on either side of the
    keyword, has no line break, and has no white space at either end. *)
Theorem snippet_shape self now text a kw l snippet :
  analyze_resume self now text = Return a →
  found_sections a !! kw = Some l → snippet ∈ l →
  (length snippet ≤ length kw + 100)%nat
  ∧ (newline ∉ snippet)
  ∧ py_strip snippet = snippet.
Proof.
  intros (_ & _ & Hfound & _)%analyze_resume_Return Hl Hin.
  rewrite Hfound, mandatory_fold_found in Hl. simpl in Hl.
  rewrite lookup_empty in Hl. simpl in Hl.
  assert (snippet ∈ snippets text kw) as Hs.
  { destruct (concat _) as [|s ss] eqn:Hc; [done|]. injection Hl as <-.
    rewrite <- Hc in Hin.
    apply list_elem_of_In, in_concat in Hin as (l' & Hl' & Hin).
    apply list_elem_of_In in Hl', Hin.
    by apply elem_of_replicate in Hl' as [-> _]. }
  unfold snippets in Hs. apply list_elem_of_fmap in Hs as (m & -> & Hm).
  apply keyword_match_fields in Hm as [Hend _].
  unfold context_of. split; [|split].
  - etrans; [apply py_strip_length|].
    unfold replace_newlines. rewrite length_fmap, length_take. lia.
  - intros Hnl%py_strip_elem.
    unfold replace_newlines in Hnl.
    apply list_elem_of_fmap in Hnl as (c & Hc & _).
    destruct (c =? newline) eqn:E; [done|]. apply N.eqb_neq in E. done.
  - apply py_strip_idemp.
Qed.

(** ** The size of the bonus *)

Lemma sum_Z_nonneg l : Forall (λ z, 0 ≤ z)%Z l → (0 ≤ sum_Z l)%Z.
Proof. induction 1; simpl; lia. Qed.

Lemma base_score_nonneg self text : (0 ≤ base_score self text)%Z.
Proof.
  unfold base_score, mandatory_score_spec, optional_score_spec.
  assert (0 ≤ sum_Z ((λ kw, Z.of_nat (occurrences text kw) * 3) <$> mandatory self))%Z.
  { apply sum_Z_nonneg, Forall_fmap, Forall_forall. intros kw _. simpl. lia. }
  assert (0 ≤ sum_Z ((λ kw, Z.of_nat (occurrences text kw)) <$> optional self))%Z.
  { apply sum_Z_nonneg, Forall_fmap, Forall_forall. intros kw _. simpl. lia. }
  lia.
Qed.

Lemma py_min_cases a b :
  (py_min a b = a ∧ (a <= b)%Q) ∨ (py_min a b = b ∧ (b < a)%Q).
Proof.
  unfold py_min. destruct (Qltb b a) eqn:H.
  - right. split; [done|]. by apply Qltb_lt.
  - left. split; [done|]. unfold Qltb in H. apply negb_false_iff in H.
    by apply Qle_bool_iff.
Qed.

Lemma exp_bonus_value self e ms os b :
  exp_bonus self (Some e) ms os = Return b →
  Qle_bool (min_experience self) e = true →
  ¬ (min_experience self == 0)%Q
  ∧ b = (py_min (e / min_experience self) 1.2 * inject_Z (ms + os) * 0.2)%Q.
Proof.
  unfold exp_bonus, py_div. intros Hb Hle. rewrite Hle in Hb.
  destruct (Qeq_bool (min_experience self) 0) eqn:H0; [done|].
  simpl in Hb. injection Hb as <-. split; [|done].
  intros Heq. apply Qeq_bool_iff in Heq. congruence.
Qed.

(** X6.  With a positive minimum the bonus never lowers the score and never
    adds more than a quarter of the sum of the two scores, and it adds
    something exactly when the experience requirement is met and the sum
    is positive. *)
Theorem score_bounds self now text a :
  (0 < min_experience self)%Q →
  analyze_resume self now text = Return a →
  (inject_Z (base_score self text) <= score a)%Q
  ∧ (score a <= 1.25 * inject_Z (base_score self text))%Q
  ∧ ((inject_Z (base_score self text) < score a)%Q
     ↔ experience_met self a = true ∧ (0 < base_score self text)%Z).
Proof.
  intros Hmin (_ & _ & _ & Hexp & b & Hb & Hscore)%analyze_resume_Return.
  pose proof (base_score_nonneg self text) as Hbase.
  unfold base_score in *. unfold experience_met. rewrite Hexp, Hscore.
  set (ms := mandatory_score_spec self text) in *.
  set (os := optional_score_spec self text) in *.
  assert (0 <= inject_Z (ms + os))%Q as HB.
  { change 0%Q with (inject_Z 0). by rewrite <- Zle_Qle. }
  assert ((0 < inject_Z (ms + os))%Q ↔ (0 < ms + os)%Z) as Hpos.
  { change 0%Q with (inject_Z 0). by rewrite <- Zlt_Qlt. }
  assert (inject_Z ms + inject_Z os == inject_Z (ms + os))%Q as Hsum
    by (by rewrite inject_Z_plus).
  rewrite <- Hpos.
  destruct (extract_experience now text) as [e|].
  - destruct (Qle_bool (min_experience self) e) eqn:Hle.
    + destruct (exp_bonus_value _ _ _ _ _ Hb Hle) as [_ ->].
      apply Qle_bool_iff in Hle.
      assert (1 <= e / min_experience self)%Q as Hratio.
      { apply Qle_shift_div_l; [done|]. by rewrite Qmult_1_l. }
      destruct (py_min_cases (e / min_experience self) 1.2) as [[-> ?]|[-> ?]].
      * split; [nra|]. split; [nra|]. split.
        -- intros Hlt. split; [done|]. nra.
        -- intros [_ Hlt]. nra.
      * split; [nra|]. split; [nra|]. split.
        -- intros Hlt. split; [done|]. nra.
        -- intros [_ Hlt]. nra.
    + unfold exp_bonus in Hb. rewrite Hle in Hb. injection Hb as <-.
      split; [nra|]. split; [nra|]. split; [intros Hlt; nra|by intros [? _]].
  - injection Hb as <-.
    split; [nra|]. split; [nra|]. split; [intros Hlt; nra|by intros [? _]].
Qed.


(** ** Keywords that do not begin or end with a word character *)

Lemma keyword_match_located kw text m :
  m ∈ finditer false (keyword_re kw) text →
  ∃ pre s, text = pre ++ s ∧ m_start m = length pre
    ∧ m_end m = (length pre + length kw)%nat
    ∧ whole_word_here kw (last pre) s = true.
Proof.
  intros (adv & pre & s & -> & Hm)%finditer_located.
  rewrite match_here_keyword in Hm.
  destruct (whole_word_here kw (last pre) s) eqn:Hw; [|done].
  destruct (negb adv || _); [|done]. injection Hm as <-.
  by exists pre, s.
Qed.

(** X8.  A keyword that begins with a character that is not a word character
    (".net", " sql") is counted only right after a word character, and
    one that ends with such a character ("c++") only right before one. *)
Theorem keyword_edges_need_word_neighbours kw text m :
  m ∈ finditer false (keyword_re kw) text →
  (∀ c, head kw = Some c → is_word c = false →
     ∃ p, (0 < m_start m)%nat
          ∧ text !! (m_start m - 1)%nat = Some p ∧ is_word p = true)
  ∧ (∀ c, last kw = Some c → is_word c = false →
       ∃ n, text !! m_end m = Some n ∧ is_word n = true).
Proof.
  intros (pre & s & -> & -> & -> & Hw)%keyword_match_located.
  unfold whole_word_here in Hw.
  apply andb_true_iff in Hw as [Hw Hafter].
  apply andb_true_iff in Hw as [Hbefore Hprefix].
  apply bool_decide_eq_true in Hprefix. split.
  - intros c Hc Hnw. destruct kw as [|c' kw]; [done|]. injection Hc as ->.
    destruct s as [|x s]; [done|]. injection Hprefix as -> _.
    unfold at_boundary in Hbefore. simpl in Hbefore. rewrite Hnw in Hbefore.
    rewrite xorb_false_r in Hbefore.
    destruct (last pre) as [p|] eqn:Hlast; [|done].
    apply last_Some in Hlast as [pre' ->]. exists p.
    rewrite length_app. simpl. split; [lia|]. split; [|done].
    replace (length pre' + 1 - 1)%nat with (length pre' + 0)%nat by lia.
    rewrite <- (assoc_L (++)). by rewrite lookup_app_r, Nat.add_0_r, Nat.sub_diag by lia.
  - intros c Hc Hnw. unfold last_before in Hafter. rewrite Hc in Hafter.
    unfold at_boundary in Hafter. simpl in Hafter. rewrite Hnw in Hafter.
    simpl in Hafter.
    destruct (head (drop (length kw) s)) as [n|] eqn:Hhd; [|done].
    exists n. split; [|done].
    rewrite lookup_app_r by lia.
    replace (length pre + length kw - length pre)%nat with (length kw) by lia.
    by rewrite <- Hhd, head_lookup, lookup_drop, Nat.add_0_r.
Qed.

(** ** The empty keyword *)

Lemma split_on_nonempty sep s : split_on sep s ≠ [].
Proof.
  destruct s as [|x s]; simpl; [done|].
  destruct (x =? sep); [done|]. by destruct (split_on sep s).
Qed.

Lemma split_on_snoc_sep sep s :
  split_on sep (s ++ [sep]) = split_on sep s ++ [[]].
Proof.
  induction s as [|x s IH]; simpl.
  - by rewrite N.eqb_refl.
  - destruct (x =? sep); [by rewrite IH|]. rewrite IH.
    pose proof (split_on_nonempty sep s). by destruct (split_on sep s).
Qed.

Lemma whole_word_here_empty prev s :
  whole_word_here [] prev s = at_boundary prev s.
Proof.
  unfold whole_word_here, last_before, text_eqb. simpl. rewrite drop_0.
  by destruct (at_boundary prev s).
Qed.

Lemma whole_word_count_empty prev s :
  whole_word_count_from [] prev s 0 = word_boundaries_from prev s.
Proof.
  revert prev. induction s as [|c s IH]; intros prev; simpl;
    rewrite whole_word_here_empty.
  - by destruct (at_boundary prev []).
  - rewrite IH. by destruct (at_boundary prev (c :: s)).
Qed.

Lemma word_boundaries_zero prev s :
  word_at prev = false →
  word_boundaries_from prev s = O ↔ Forall (λ c, is_word c = false) s.
Proof.
  revert prev. induction s as [|c s IH]; intros prev Hprev; simpl.
  - unfold at_boundary. simpl. rewrite Hprev. simpl. by split; [constructor|].
  - unfold at_boundary. simpl. rewrite Hprev. simpl.
    destruct (is_word c) eqn:Hc; simpl.
    + split; [done|]. inversion 1; congruence.
    + rewrite (IH (Some c)) by done. split; [by constructor|]. by inversion 1.
Qed.

(** X9.  The form of [src/app.py] keeps the empty pieces of a keyword field:
    an empty field, or one that ends with a comma, lists the empty
    keyword.  The empty keyword has one match at every place where a word
    begins or ends, so it is missing only from a text without any word
    character. *)
Theorem empty_keyword_counts_word_boundaries :
  [] ∈ flask_keywords []
  ∧ (∀ field, [] ∈ flask_keywords (field ++ [comma]))
  ∧ (∀ text, occurrences text [] = word_boundaries text)
  ∧ (∀ text, occurrences text [] = O ↔ Forall (λ c, is_word c = false) text).
Proof.
  split; [by left|]. split; [|split].
  - intros field. unfold flask_keywords. rewrite split_on_snoc_sep.
    apply elem_of_app. right. by left.
  - intros text. rewrite occurrences_whole_word. apply whole_word_count_empty.
  - intros text. rewrite occurrences_whole_word.
    unfold whole_word_count. rewrite whole_word_count_empty.
    by apply word_boundaries_zero.
Qed.

(** ** The keywords of the Gradio form *)

Lemma split_on_no_sep sep s piece : piece ∈ split_on sep s → sep ∉ piece.
Proof.
  revert piece. induction s as [|x s IH]; intros piece; simpl.
  - intros ->%list_elem_of_singleton. by intros ?%elem_of_nil.
  - destruct (x =? sep) eqn:Hx.
    + intros [->|?]%elem_of_cons; [by intros ?%elem_of_nil|by apply IH].
    + apply N.eqb_neq in Hx.
      pose proof (split_on_nonempty sep s) as Hne.
      destruct (split_on sep s) as [|p ps]; [done|].
      intros [->|Hin]%elem_of_cons.
      * intros [?|Hp]%elem_of_cons; [done|]. revert Hp. apply IH. by left.
      * apply IH. by right.
Qed.

Lemma split_on_whole sep s : sep ∉ s → split_on sep s = [s].
Proof.
  induction s as [|x s IH]; intros Hs; simpl; [done|].
  destruct (x =? sep) eqn:Hx.
  - apply N.eqb_eq in Hx as ->. destruct Hs. by left.
  - rewrite IH; [done|]. intros ?. apply Hs. by right.
Qed.

(** X10.  The keywords [process_resume_filter] reads from a field are never
    blank, have no white space at either end and hold no comma; a blank
    field gives no keyword at all. *)
Theorem gradio_keywords_are_clean field :
  (∀ kw, kw ∈ gradio_keywords field →
     kw ≠ [] ∧ py_strip kw = kw ∧ (comma ∉ kw))
  ∧ (py_strip field = [] → gradio_keywords field = []).
Proof.
  unfold gradio_keywords. split.
  - intros kw. rewrite list_elem_of_In, filter_In, <- list_elem_of_In.
    intros [(piece & -> & Hpiece)%list_elem_of_fmap Hnb].
    split; [|split].
    + intros Heq. rewrite Heq in Hnb. done.
    + apply py_strip_idemp.
    + intros Hc%py_strip_elem. by apply split_on_no_sep in Hpiece.
  - intros Hblank. rewrite split_on_whole.
    + simpl. by rewrite Hblank.
    + apply py_strip_nil in Hblank. rewrite Forall_forall in Hblank.
      intros Hc%Hblank. by vm_compute in Hc.
Qed.

(** ** The batch as a whole *)

Lemma omap_candidates_length self w now dir filenames :
  (length (omap (candidate_for self w now dir) filenames)
   ≤ length (List.filter supported filenames))%nat.
Proof.
  induction filenames as [|f fs IH]; [done|].
  change (omap (candidate_for self w now dir) (f :: fs))
    with (match candidate_for self w now dir f with
          | Some c => c :: omap (candidate_for self w now dir) fs
          | None => omap (candidate_for self w now dir) fs
          end).
  change (List.filter supported (f :: fs))
    with (if supported f then f :: List.filter supported fs
          else List.filter supported fs).
  destruct (candidate_for self w now dir f) as [c|] eqn:Hc;
    destruct (supported f) eqn:Hs; simpl length; try lia.
  unfold candidate_for in Hc. by rewrite Hs in Hc.
Qed.

(** X11.  When the batch returns, the ranking holds the files of the listing
    that are supported, not blank and have every mandatory keyword, each
    with the analysis of its text, and nothing else: no such file is
    lost. *)
Theorem every_qualified_resume_is_ranked self w now resume_dir ranked :
  process_resumes self w now resume_dir = Return ranked →
  ranked ≡ₚ omap (candidate_for self w now resume_dir) (listdir w resume_dir)
  ∧ (length ranked ≤ length (List.filter supported (listdir w resume_dir)))%nat
  ∧ ∀ filename,
      filename ∈ listdir w resume_dir → analysed w resume_dir filename →
      let text := extract_text w (path_join resume_dir filename) in
      (∀ kw, kw ∈ mandatory self → (0 < occurrences text kw)%nat) →
      ∃ a, analyze_resume self now text = Return a
           ∧ candidate_of self filename a ∈ ranked.
Proof.
  unfold process_resumes.
  destruct (collect _ _ _ _ _ _) as [pool|] eqn:Hpool; [|done]. simpl.
  intros [= <-]. apply collect_pool in Hpool as [-> Hall]. simpl.
  assert (rank (omap (candidate_for self w now resume_dir) (listdir w resume_dir))
          ≡ₚ omap (candidate_for self w now resume_dir) (listdir w resume_dir))
    as Hperm by apply sort_by_perm.
  split; [done|]. split.
  - rewrite Hperm. apply omap_candidates_length.
  - intros filename Hin Han Hkw.
    set (text := extract_text w (path_join resume_dir filename)) in *.
    destruct (Hall filename Hin Han) as [a Ha]. fold text in Ha.
    exists a. split; [done|].
    rewrite Hperm. apply list_elem_of_omap. exists filename. split; [done|].
    unfold candidate_for. destruct Han as [-> Hnb].
    rewrite bool_decide_eq_false_2 by done. simpl. fold text. rewrite Ha.
    apply analyze_resume_Return in Ha as (-> & _).
    assert (List.filter (λ kw, (occurrences text kw =? 0)%nat) (mandatory self) = [])
      as ->; [|done].
    induction (mandatory self) as [|k ks IHk]; simpl; [done|].
    assert (0 < occurrences text k)%nat as Hk by (apply Hkw; left).
    destruct (occurrences text k); [lia|]. simpl.
    apply IHk. intros kw' Hkw'. apply Hkw. by right.
Qed.

Lemma analyze_resume_raises self now text :
  analyze_resume self now text = Raise ZeroDivisionError
  ↔ (min_experience self == 0)%Q ∧ is_Some (extract_experience now text).
Proof.
  rewrite analyze_resume_eq. split.
  - unfold exp_bonus, py_div.
    destruct (extract_experience now text) as [e|]; [|done].
    destruct (Qle_bool _ _); [|done].
    destruct (Qeq_bool (min_experience self) 0) eqn:H0; [|done].
    intros _. split; [by apply Qeq_bool_iff|by eexists].
  - intros [Hmin [e He]]. rewrite He.
    rewrite exp_bonus_zero_minimum; [done|done|].
    by eapply extract_experience_nonneg.
Qed.

Lemma collect_raises self w now dir filenames results :
  collect self w now dir filenames results = Raise ZeroDivisionError
  ↔ ∃ filename, filename ∈ filenames ∧ analysed w dir filename
      ∧ analyze_resume self now (extract_text w (path_join dir filename))
        = Raise ZeroDivisionError.
Proof.
  revert results. induction filenames as [|f fs IH]; intros results; simpl.
  - split; [done|]. by intros (? & ?%elem_of_nil & _).
  - unfold analysed.
    destruct (supported f) eqn:Hsup; simpl.
    + destruct (bool_decide (py_strip (extract_text w (path_join dir f)) = []))
        eqn:Hblank; simpl.
      * apply bool_decide_eq_true in Hblank. rewrite IH. split.
        -- intros (x & ? & ?). exists x. split; [by right|done].
        -- intros (x & [->|?]%elem_of_cons & [? Hnb] & ?); [done|].
           by exists x.
      * apply bool_decide_eq_false in Hblank.
        destruct (analyze_resume self now _) as [a|[]] eqn:Ha; simpl.
        -- rewrite IH. split.
           ++ intros (x & ? & ?). exists x. split; [by right|done].
           ++ intros (x & [->|?]%elem_of_cons & ? & Hx); [congruence|].
              by exists x.
        -- split; [|done]. intros _. exists f. split; [by left|done].
    + rewrite IH. split.
      * intros (x & ? & ?). exists x. split; [by right|done].
      * intros (x & [->|?]%elem_of_cons & [? ?] & ?); [congruence|].
        by exists x.
Qed.

(** X12.  The batch fails as a whole, with [ZeroDivisionError], exactly when the
    minimum is zero and the text of some analysed file of the listing has
    an experience to extract; one such file is enough, wherever it stands
    in the listing. *)
Theorem batch_aborts_iff self w now resume_dir :
  process_resumes self w now resume_dir = Raise ZeroDivisionError
  ↔ (min_experience self == 0)%Q
    ∧ ∃ filename,
        filename ∈ listdir w resume_dir ∧ analysed w resume_dir filename
        ∧ is_Some (extract_experience now
                     (extract_text w (path_join resume_dir filename))).
Proof.
  unfold process_resumes.
  destruct (collect _ _ _ _ _ _) as [pool|[]] eqn:Hc; simpl.
  - split; [done|]. intros (Hmin & f & Hin & Han & He).
    assert (collect self w now resume_dir (listdir w resume_dir) []
            = Raise ZeroDivisionError) as Hr; [|congruence].
    apply collect_raises. exists f. split; [done|]. split; [done|].
    by apply analyze_resume_raises.
  - split; [|done]. intros _.
    apply collect_raises in Hc as (f & Hin & Han & Hr).
    apply analyze_resume_raises in Hr as [Hmin He]. eauto.
Qed.

(** ** The two implementations of [extract_text] *)

Lemma extract_text_agree w filepath :
  ¬ extraction_raises w filepath →
  gradio_extract_text w filepath = extract_text w filepath.
Proof.
  unfold extraction_raises, gradio_extract_text, extract_text.
  destruct (endswith _ (str ".pdf")).
  - destruct (pdf_pages w filepath) as [pages|msg]; [|by intros []].
    destruct (bool_decide _) eqn:Hblank; [|done].
    apply bool_decide_eq_true in Hblank.
    destruct (ocr_pages w filepath) as [images|msg]; [done|].
    intros []. split; [done|by eexists].
  - destruct (_ || _); [|done].
    destruct (docx_document w filepath) as [[paragraphs tables]|msg]; [done|].
    intros []. by eexists.
Qed.

Lemma error_text_not_blank filepath msg :
  py_strip (str "Error processing " ++ filepath ++ str ": " ++ msg) ≠ [].
Proof.
  change (str "Error processing " ++ filepath ++ str ": " ++ msg)
    with (69 :: (str "rror processing " ++ filepath ++ str ": " ++ msg)).
  unfold py_strip. rewrite lstrip_id by done.
  destruct (rstrip_cons_head 69
              (str "rror processing " ++ filepath ++ str ": " ++ msg))
    as [t ->]; done.
Qed.

(** X13.  When no reader raises, [extract_text] of [src/gradioApp.py] returns
    what [extract_text] of [src/resume_filter.py] returns. *)
Theorem extract_text_agrees_without_failure w filepath :
  ¬ extraction_raises w filepath →
  gradio_extract_text w filepath = extract_text w filepath.
Proof. apply extract_text_agree. Qed.

(** X14.  When a reader raises, the two part: [src/resume_filter.py] returns a
    blank text, which [process_resumes] skips, and [src/gradioApp.py]
    returns the message "Error processing", the path, a colon and the
    text of the exception, which is never blank. *)
Theorem extract_text_differs_on_failure w filepath :
  extraction_raises w filepath →
  py_strip (extract_text w filepath) = []
  ∧ py_strip (gradio_extract_text w filepath) ≠ []
  ∧ ∃ msg, gradio_extract_text w filepath
           = str "Error processing " ++ filepath ++ str ": " ++ msg.
Proof.
  intros Hr. split; [by apply extract_text_raises_blank|].
  assert (∃ msg, gradio_extract_text w filepath
                 = str "Error processing " ++ filepath ++ str ": " ++ msg)
    as [msg Hmsg].
  { revert Hr. unfold extraction_raises, gradio_extract_text.
    destruct (endswith _ (str ".pdf")).
    - destruct (pdf_pages w filepath) as [pages|msg]; [|by eexists].
      intros [Hblank [msg ->]]. rewrite bool_decide_eq_true_2 by done.
      by eexists.
    - destruct (_ || _); [|done]. intros [msg ->]. by eexists. }
  split; [|by eexists]. rewrite Hmsg. apply error_text_not_blank.
Qed.

(** ** The two implementations of [process_resumes] *)

Lemma gradio_collect_pool self w now paths results pool :
  gradio_collect self w now paths results = Return pool →
  pool = results ++ omap (gradio_candidate_for self w now) paths
  ∧ ∀ filepath, filepath ∈ paths → supported filepath = true →
      py_strip (gradio_extract_text w filepath) ≠ [] →
      ∃ a, analyze_resume self now (gradio_extract_text w filepath) = Return a.
Proof.
  revert results. induction paths as [|f fs IH]; intros results; simpl.
  - intros [= <-]. split; [by rewrite app_nil_r|]. by intros ? ?%elem_of_nil.
  - unfold gradio_candidate_for at 1.
    destruct (supported f) eqn:Hsup; simpl.
    + destruct (bool_decide (py_strip (gradio_extract_text w f) = []))
        eqn:Hblank; simpl.
      * intros [-> Hall]%IH. split; [done|].
        intros filepath [->|Hin]%elem_of_cons Hs Hnb; [|by apply Hall].
        by apply bool_decide_eq_true in Hblank.
      * destruct (analyze_resume self now _) as [a|e] eqn:Ha; [|done]. simpl.
        intros [-> Hall]%IH. split.
        -- destruct (missing_mandatory a); [|done].
           by rewrite <- (assoc_L (++)).
        -- intros filepath [->|Hin]%elem_of_cons Hs Hnb; [by eexists|].
           by apply Hall.
    + intros [-> Hall]%IH. split; [done|].
      intros filepath [->|Hin]%elem_of_cons Hs Hnb; [congruence|].
      by apply Hall.
Qed.

Lemma no_missing_keyword text kws :
  (∀ kw, kw ∈ kws → (0 < occurrences text kw)%nat) →
  List.filter (λ kw, (occurrences text kw =? 0)%nat) kws = [].
Proof.
  induction kws as [|k ks IH]; intros Hkw; simpl; [done|].
  assert (0 < occurrences text k)%nat as Hk by (apply Hkw; left).
  destruct (occurrences text k); [lia|]. simpl.
  apply IH. intros kw' Hkw'. apply Hkw. by right.
Qed.

(** X15.  In [src/gradioApp.py] a file whose reader raises is ranked, under its
    base name, whenever the message that stands for its text holds every
    mandatory keyword; with no mandatory keyword it always is. *)
Theorem gradio_unreadable_file_is_ranked self w now paths ranked filepath :
  gradio_process_resumes self w now paths = Return ranked →
  filepath ∈ paths → supported filepath = true →
  extraction_raises w filepath →
  (∀ kw, kw ∈ mandatory self →
     (0 < occurrences (gradio_extract_text w filepath) kw)%nat) →
  ∃ a, analyze_resume self now (gradio_extract_text w filepath) = Return a
       ∧ candidate_of self (basename filepath) a ∈ ranked.
Proof.
  unfold gradio_process_resumes.
  destruct (gradio_collect _ _ _ _ _) as [pool|] eqn:Hpool; [|done]. simpl.
  intros [= <-] Hin Hsup Hr Hkw.
  apply gradio_collect_pool in Hpool as [-> Hall]. simpl.
  assert (py_strip (gradio_extract_text w filepath) ≠ []) as Hnb.
  { revert Hr. unfold extraction_raises, gradio_extract_text.
    destruct (endswith _ (str ".pdf")).
    - destruct (pdf_pages w filepath) as [pages|msg];
        [|intros _; apply error_text_not_blank].
      intros [Hblank [msg ->]]. rewrite bool_decide_eq_true_2 by done.
      apply error_text_not_blank.
    - destruct (_ || _); [|done]. intros [msg ->]. apply error_text_not_blank. }
  destruct (Hall filepath Hin Hsup Hnb) as [a Ha]. exists a. split; [done|].
  unfold rank. rewrite sort_by_perm.
  apply list_elem_of_omap. exists filepath. split; [done|].
  unfold gradio_candidate_for. rewrite Hsup.
  rewrite bool_decide_eq_false_2 by done. simpl. rewrite Ha.
  apply analyze_resume_Return in Ha as (-> & _).
  by rewrite no_missing_keyword.
Qed.

Lemma basename_from_no_solidus acc p :
  solidus ∉ p → basename_from acc p = acc ++ p.
Proof.
  revert acc. induction p as [|c p IH]; intros acc Hp; simpl.
  - by rewrite app_nil_r.
  - destruct (c =? solidus) eqn:Hc.
    + apply N.eqb_eq in Hc as ->. destruct Hp. by left.
    + rewrite IH; [by rewrite <- (assoc_L (++))|].
      intros ?. apply Hp. by right.
Qed.

Lemma basename_from_app acc a p :
  basename_from acc (a ++ solidus :: p) = basename_from [] p.
Proof.
  revert acc. induction a as [|c a IH]; intros acc; simpl; [done|].
  by destruct (c =? solidus).
Qed.

Lemma path_join_cases a b :
  solidus ∉ b → path_join a b = b ∨ ∃ a', path_join a b = a' ++ solidus :: b.
Proof.
  intros Hb. unfold path_join.
  rewrite (bool_decide_eq_false_2 (head b = Some solidus)).
  - destruct (bool_decide (a = [])) eqn:Ha; simpl.
    + apply bool_decide_eq_true in Ha as ->. by left.
    + destruct (bool_decide (last a = Some solidus)) eqn:Hl.
      * apply bool_decide_eq_true, last_Some in Hl as [a' ->].
        right. exists a'. by rewrite <- (assoc_L (++)).
      * right. by exists a.
  - intros Hh. destruct b as [|c b]; [done|]. injection Hh as ->.
    apply Hb. by left.
Qed.

Lemma basename_path_join a b : solidus ∉ b → basename (path_join a b) = b.
Proof.
  intros Hb. unfold basename.
  destruct (path_join_cases a b Hb) as [->|[a' ->]].
  - by rewrite basename_from_no_solidus.
  - by rewrite basename_from_app, basename_from_no_solidus.
Qed.

Lemma endswith_after_solidus x y suf :
  solidus ∉ suf → endswith (x ++ solidus :: y) suf = endswith y suf.
Proof.
  intros Hsuf. unfold endswith, text_eqb.
  destruct (decide (length suf ≤ length y)%nat) as [Hle|Hgt].
  - rewrite length_app. simpl.
    replace (length x + S (length y) - length suf)%nat
      with (length x + (1 + (length y - length suf)))%nat by lia.
    by rewrite drop_app_add.
  - rewrite !bool_decide_eq_false_2; [done| |].
    + intros Heq. apply (f_equal length) in Heq.
      rewrite length_drop in Heq. lia.
    + intros Heq. apply Hsuf. rewrite <- Heq.
      rewrite length_app. simpl.
      rewrite drop_app_le by lia.
      apply elem_of_app. right. by left.
Qed.

Lemma supported_path_join a b :
  solidus ∉ b → supported (path_join a b) = supported b.
Proof.
  intros Hb. destruct (path_join_cases a b Hb) as [->|[a' ->]]; [done|].
  unfold supported, py_lower. rewrite bind_app.
  change ((solidus :: b) ≫= lower_cp) with (solidus :: (b ≫= lower_cp)).
  assert (∀ ext, ext ∈ [str ".pdf"; str ".docx"; str ".doc"] → solidus ∉ ext)
    as Hext.
  { intros ext. rewrite !elem_of_cons, elem_of_nil.
    intros [->|[->|[->|[]]]] Hin; apply list_elem_of_In in Hin;
      vm_compute in Hin; intuition discriminate. }
  rewrite !endswith_after_solidus; [done|..]; apply Hext.
  - do 2 right. by left.
  - right. by left.
  - by left.
Qed.

Lemma collect_agree self w now dir filenames results :
  (∀ filename, filename ∈ filenames →
     (solidus ∉ filename) ∧ ¬ extraction_raises w (path_join dir filename)) →
  gradio_collect self w now (path_join dir <$> filenames) results
  = collect self w now dir filenames results.
Proof.
  revert results. induction filenames as [|f fs IH]; intros results H; [done|].
  destruct (H f) as [Hf Hr]; [by left|].
  assert (∀ filename, filename ∈ fs →
            (solidus ∉ filename)
            ∧ ¬ extraction_raises w (path_join dir filename))
    as H' by (intros x Hx; apply H; by right).
  simpl. rewrite supported_path_join, basename_path_join, extract_text_agree
    by done.
  destruct (supported f); simpl; [|by apply IH].
  destruct (bool_decide _); [by apply IH|].
  destruct (analyze_resume self now _) as [a|]; [|done]. simpl. by apply IH.
Qed.

(** X16.  On a directory whose file names hold no solidus and whose readers do
    not raise, [process_resumes] of [src/gradioApp.py], given the paths of
    the listing, returns what [process_resumes] of [src/resume_filter.py]
    returns for the directory. *)
Theorem batches_agree_without_failure self w now resume_dir :
  (∀ filename, filename ∈ listdir w resume_dir →
     (solidus ∉ filename)
     ∧ ¬ extraction_raises w (path_join resume_dir filename)) →
  gradio_process_resumes self w now (path_join resume_dir <$> listdir w resume_dir)
  = process_resumes self w now resume_dir.
Proof.
  intros H. unfold gradio_process_resumes, process_resumes.
  by rewrite collect_agree.
Qed.

End Unicode.

(** * Worked instances

    Each statement above that has a premise, applied to a concrete
    input. *)

Lemma total_score_formula_witness :
  let self := init ascii_only [] [str "python"] [str "django"] 5%Q in
  let text := str "python python django 6 years experience" in
  ∃ a, analyze_resume ascii_only self (MonthStart 2026 11) text = Return a
       ∧ (score a == 6 + 1 + Qmin (6 / 5) 1.2 * (6 + 1) * 0.2)%Q.
Proof.
  eexists. split; [vm_compute; reflexivity|].
  apply (proj1 (total_score_formula ascii_only)
           (init ascii_only [] [str "python"] [str "django"] 5%Q)
           (MonthStart 2026 11)
           (str "python python django 6 years experience")).
  vm_compute. reflexivity.
Defined.

Lemma ranking_sorted_and_stable_witness :
  let self := init ascii_only [] [str "python"] [] 1%Q in
  let w := docx_folder [(str "a.docx", str "Python");
                        (str "b.docx", str "Python, python");
                        (str "c.docx", str "python")] in
  let now := MonthStart 2026 11 in
  let resume_dir := str "resumes" in
  ∃ ranked,
    process_resumes ascii_only self w now resume_dir = Return ranked
    ∧ c_filename <$> ranked = [str "b.docx"; str "a.docx"; str "c.docx"]
    ∧ let pool := omap (candidate_for ascii_only self w now resume_dir)
                    (listdir w resume_dir) in
      ranked ≡ₚ pool
      ∧ StronglySorted ranked_before ranked
      ∧ ∀ x, List.filter (same_rank x) ranked = List.filter (same_rank x) pool.
Proof.
  eexists.
  assert (process_resumes ascii_only
            (init ascii_only [] [str "python"] [] 1%Q)
            (docx_folder [(str "a.docx", str "Python");
                          (str "b.docx", str "Python, python");
                          (str "c.docx", str "python")])
            (MonthStart 2026 11) (str "resumes") = Return _) as Hp
    by (vm_compute; reflexivity).
  split; [exact Hp|]. split; [vm_compute; reflexivity|].
  exact (ranking_sorted_and_stable ascii_only _ _ _ _ _ Hp).
Defined.

Lemma ranked_have_every_mandatory_keyword_witness :
  let self := init ascii_only [] [str "python"; str "sql"] [] 1%Q in
  let w := one_docx (str "cv.docx") (str "Python and SQL, then more python") in
  ∃ ranked c,
    process_resumes ascii_only self w (MonthStart 2026 11) (str "resumes")
      = Return ranked
    ∧ c ∈ ranked
    ∧ c_missing_mandatory c = []
    ∧ c_filename c ∈ listdir w (str "resumes")
    ∧ ∀ kw, kw ∈ mandatory self →
        (0 < occurrences ascii_only
               (extract_text ascii_only w
                  (path_join (str "resumes") (c_filename c))) kw)%nat.
Proof.
  eexists. eexists.
  assert (process_resumes ascii_only
            (init ascii_only [] [str "python"; str "sql"] [] 1%Q)
            (one_docx (str "cv.docx") (str "Python and SQL, then more python"))
            (MonthStart 2026 11) (str "resumes") = Return _) as Hp
    by (vm_compute; reflexivity).
  split; [exact Hp|].
  assert (Hc : ∀ (c : candidate), c ∈ [c]) by (intros c; left).
  split; [apply Hc|].
  exact (proj1 (ranked_have_every_mandatory_keyword ascii_only) _ _ _ _ _ _
           Hp (Hc _)).
Defined.

Lemma first_explicit_pattern_wins_witness :
  let text := str "experience: 5 years" in
  let pattern := default Eps (patterns !! 1%nat) in
  ∃ m,
    patterns !! 1%nat = Some pattern
    ∧ (∀ j p, (j < 1)%nat → patterns !! j = Some p →
              finditer ascii_only false p text = [])
    ∧ head (finditer ascii_only false pattern text) = Some m
    ∧ ∃ w q, m_group 1 m = Some w ∧ py_float ascii_only w = Some q
             ∧ extract_experience ascii_only (MonthStart 2026 11) text = Some q.
Proof.
  eexists.
  assert (patterns !! 1%nat = Some (default Eps (patterns !! 1%nat))) as Hi
    by reflexivity.
  assert (∀ j p, (j < 1)%nat → patterns !! j = Some p →
            finditer ascii_only false p (str "experience: 5 years") = []) as Hb.
  { intros j p Hj. destruct j; [|lia]. intros [= <-]. vm_compute. reflexivity. }
  assert (head (finditer ascii_only false (default Eps (patterns !! 1%nat))
                  (str "experience: 5 years")) = Some _)
    as Hm by (vm_compute; reflexivity).
  split; [exact Hi|]. split; [exact Hb|]. split; [exact Hm|].
  exact (proj1 (first_explicit_pattern_wins ascii_only)
           (MonthStart 2026 11) _ _ _ _ Hi Hb Hm).
Defined.

Lemma no_explicit_statement (text : pystr) :
  Forall (λ p, finditer ascii_only false p text = []) patterns →
  ∀ p, p ∈ patterns → finditer ascii_only false p text = [].
Proof. intros H p Hp. rewrite Forall_forall in H. by apply H. Defined.

Lemma date_ranges_are_summed_witness :
  let text := str "jan 2018 - dec 2019, mar 2020 - jun 2021" in
  let now := MonthStart 2026 11 in
  (∀ p, p ∈ patterns → finditer ascii_only false p text = [])
  ∧ match extract_experience ascii_only now text with
    | Some total =>
        positive_durations ascii_only now text ≠ []
        ∧ (total == sum_Q (positive_durations ascii_only now text))%Q
    | None => positive_durations ascii_only now text = []
    end.
Proof.
  assert (∀ p, p ∈ patterns →
            finditer ascii_only false p
              (str "jan 2018 - dec 2019, mar 2020 - jun 2021") = []) as Hnone.
  { apply no_explicit_statement. repeat constructor. }
  split; [exact Hnone|].
  exact (proj1 (date_ranges_are_summed ascii_only) (MonthStart 2026 11) _ Hnone).
Defined.

Lemma keyword_counts_are_whole_word_counts_witness :
  let self := init ascii_only [] [str "Python"] [str "SQL"] 1%Q in
  let raw := str "Python, SQL and python; not pythonic." in
  ∃ a, analyze_resume ascii_only self (MonthStart 2026 11)
         (py_lower ascii_only raw) = Return a
       ∧ str "Python" ∈ [str "Python"] ++ [str "SQL"]
       ∧ keyword_counts a !! py_lower ascii_only (str "Python")
         = Some (whole_word_count ascii_only (py_lower ascii_only (str "Python"))
                   (py_lower ascii_only raw)).
Proof.
  eexists.
  assert (analyze_resume ascii_only
            (init ascii_only [] [str "Python"] [str "SQL"] 1%Q)
            (MonthStart 2026 11)
            (py_lower ascii_only (str "Python, SQL and python; not pythonic."))
          = Return _) as Ha by (vm_compute; reflexivity).
  assert (str "Python" ∈ [str "Python"] ++ [str "SQL"]) as Hkw by left.
  split; [exact Ha|]. split; [exact Hkw|].
  exact (proj1 (keyword_counts_are_whole_word_counts ascii_only)
           [] [str "Python"] [str "SQL"] 1%Q (MonthStart 2026 11) _ _ _ Ha Hkw).
Defined.

Lemma zero_minimum_divides_by_zero_witness :
  let text := str "5 years experience" in
  let now := MonthStart 2026 11 in
  ((min_experience (init ascii_only [] [] [] 0%Q) == 0)%Q
   ∧ extract_experience ascii_only now text = Some 5%Q
   ∧ analyze_resume ascii_only (init ascii_only [] [] [] 0%Q) now text
     = Raise ZeroDivisionError)
  ∧ ((0 < min_experience (init ascii_only [] [] [] 5%Q))%Q
     ∧ ∃ a, analyze_resume ascii_only (init ascii_only [] [] [] 5%Q) now text
            = Return a).
Proof.
  split.
  - assert (min_experience (init ascii_only [] [] [] 0%Q) == 0)%Q as Hmin
      by reflexivity.
    assert (extract_experience ascii_only (MonthStart 2026 11)
              (str "5 years experience") = Some 5%Q) as He
      by (vm_compute; reflexivity).
    split; [exact Hmin|]. split; [exact He|].
    exact (proj1 (zero_minimum_divides_by_zero ascii_only _ _ _) Hmin _ He).
  - assert (0 < min_experience (init ascii_only [] [] [] 5%Q))%Q as Hmin
      by reflexivity.
    split; [exact Hmin|].
    exact (proj2 (zero_minimum_divides_by_zero ascii_only _
                    (MonthStart 2026 11) (str "5 years experience")) Hmin).
Defined.

Lemma no_digit_no_experience_witness :
  let text := str "python developer, march - present" in
  digit_free ascii_only text
  ∧ extract_experience ascii_only (MonthStart 2026 11) text = None.
Proof.
  assert (digit_free ascii_only (str "python developer, march - present")) as H
    by (repeat constructor).
  split; [exact H|].
  exact (no_digit_no_experience ascii_only (MonthStart 2026 11) _ H).
Defined.

Lemma experience_sign_witness :
  let text := str "jan 2018 - dec 2019" in
  let now := MonthStart 2026 11 in
  ∃ e, extract_experience ascii_only now text = Some e
       ∧ (0 <= e)%Q
       ∧ ((∀ p, p ∈ patterns → finditer ascii_only false p text = []) → (0 < e)%Q).
Proof.
  eexists.
  assert (extract_experience ascii_only (MonthStart 2026 11)
            (str "jan 2018 - dec 2019") = Some _) as He
    by (vm_compute; reflexivity).
  split; [exact He|].
  exact (experience_sign ascii_only _ _ _ He).
Defined.

Lemma counts_and_missing_agree_witness :
  let self := init ascii_only [] [str "python"; str "sql"] [str "django"] 1%Q in
  let text := str "python and django" in
  ∃ a, analyze_resume ascii_only self (MonthStart 2026 11) text = Return a
       ∧ (∀ kw, is_Some (keyword_counts a !! kw)
                ↔ kw ∈ mandatory self ++ optional self)
       ∧ (∀ kw, kw ∈ missing_mandatory a
                ↔ kw ∈ mandatory self ∧ keyword_counts a !! kw = Some O).
Proof.
  eexists.
  assert (analyze_resume ascii_only
            (init ascii_only [] [str "python"; str "sql"] [str "django"] 1%Q)
            (MonthStart 2026 11) (str "python and django") = Return _) as Ha
    by (vm_compute; reflexivity).
  split; [exact Ha|].
  exact (counts_and_missing_agree ascii_only _ _ _ _ Ha).
Defined.

Lemma snippets_of_mandatory_matches_witness :
  let self := init ascii_only [] [str "python"; str "python"] [] 1%Q in
  let text := str "python here, python there" in
  let kw := str "python" in
  ∃ a, analyze_resume ascii_only self (MonthStart 2026 11) text = Return a
       ∧ match found_sections a !! kw with
         | Some l =>
             kw ∈ mandatory self ∧ (0 < occurrences ascii_only text kw)%nat
             ∧ l = concat (replicate (listed kw (mandatory self))
                             (snippets ascii_only text kw))
             ∧ length l
               = (listed kw (mandatory self) * occurrences ascii_only text kw)%nat
         | None => kw ∉ mandatory self ∨ occurrences ascii_only text kw = O
         end.
Proof.
  eexists.
  assert (analyze_resume ascii_only
            (init ascii_only [] [str "python"; str "python"] [] 1%Q)
            (MonthStart 2026 11) (str "python here, python there") = Return _)
    as Ha by (vm_compute; reflexivity).
  split; [exact Ha|].
  exact (snippets_of_mandatory_matches ascii_only _ _ _ _ (str "python") Ha).
Defined.

Lemma snippet_shape_witness :
  let self := init ascii_only [] [str "python"] [] 1%Q in
  let text := str "  python" ++ [newline] ++ str "developer  " in
  ∃ a l snippet,
    analyze_resume ascii_only self (MonthStart 2026 11) text = Return a
    ∧ found_sections a !! str "python" = Some l
    ∧ snippet ∈ l
    ∧ snippet = str "python developer"
    ∧ (length snippet ≤ length (str "python") + 100)%nat
    ∧ (newline ∉ snippet)
    ∧ py_strip ascii_only snippet = snippet.
Proof.
  eexists. eexists. eexists.
  assert (analyze_resume ascii_only (init ascii_only [] [str "python"] [] 1%Q)
            (MonthStart 2026 11)
            (str "  python" ++ [newline] ++ str "developer  ") = Return _)
    as Ha by (vm_compute; reflexivity).
  match type of Ha with
  | _ = Return ?a =>
      assert (found_sections a !! str "python" = Some [str "python developer"])
        as Hl by (vm_compute; reflexivity)
  end.
  assert (str "python developer" ∈ [str "python developer"]) as Hin by left.
  split; [exact Ha|]. split; [exact Hl|]. split; [exact Hin|].
  split; [reflexivity|].
  exact (snippet_shape ascii_only _ _ _ _ _ _ _ Ha Hl Hin).
Defined.

Lemma score_bounds_witness :
  let self := init ascii_only [] [str "python"] [str "django"] 5%Q in
  let text := str "python python django 6 years experience" in
  ∃ a, (0 < min_experience self)%Q
       ∧ analyze_resume ascii_only self (MonthStart 2026 11) text = Return a
       ∧ (inject_Z (base_score ascii_only self text) <= score a)%Q
       ∧ (score a <= 1.25 * inject_Z (base_score ascii_only self text))%Q
       ∧ ((inject_Z (base_score ascii_only self text) < score a)%Q
          ↔ experience_met self a = true
            ∧ (0 < base_score ascii_only self text)%Z).
Proof.
  eexists.
  assert (0 < min_experience
                (init ascii_only [] [str "python"] [str "django"] 5%Q))%Q
    as Hmin by reflexivity.
  assert (analyze_resume ascii_only
            (init ascii_only [] [str "python"] [str "django"] 5%Q)
            (MonthStart 2026 11)
            (str "python python django 6 years experience") = Return _) as Ha
    by (vm_compute; reflexivity).
  split; [exact Hmin|]. split; [exact Ha|].
  exact (score_bounds ascii_only _ _ _ _ Hmin Ha).
Defined.


Lemma keyword_edges_need_word_neighbours_witness :
  let kw := str ".net" in
  let text := str "asp.net core, .net" in
  ∃ m, m ∈ finditer ascii_only false (keyword_re kw) text
       ∧ (∀ c, head kw = Some c → is_word ascii_only c = false →
            ∃ p, (0 < m_start m)%nat
                 ∧ text !! (m_start m - 1)%nat = Some p
                 ∧ is_word ascii_only p = true)
       ∧ (∀ c, last kw = Some c → is_word ascii_only c = false →
            ∃ n, text !! m_end m = Some n ∧ is_word ascii_only n = true).
Proof.
  assert (∃ m, finditer ascii_only false (keyword_re (str ".net"))
                 (str "asp.net core, .net") = [m]) as [m Hf]
    by (eexists; vm_compute; reflexivity).
  assert (m ∈ finditer ascii_only false (keyword_re (str ".net"))
                (str "asp.net core, .net")) as Hin
    by (rewrite Hf; left).
  exists m. split; [exact Hin|].
  exact (keyword_edges_need_word_neighbours ascii_only _ _ _ Hin).
Defined.

Lemma gradio_keywords_are_clean_witness :
  let field := str " python , ,sql " in
  gradio_keywords ascii_only field = [str "python"; str "sql"]
  ∧ (∀ kw, kw ∈ gradio_keywords ascii_only field →
       kw ≠ [] ∧ py_strip ascii_only kw = kw ∧ (comma ∉ kw))
  ∧ (py_strip ascii_only field = [] → gradio_keywords ascii_only field = []).
Proof.
  split; [vm_compute; reflexivity|].
  exact (gradio_keywords_are_clean ascii_only (str " python , ,sql ")).
Defined.

Lemma every_qualified_resume_is_ranked_witness :
  let self := init ascii_only [] [str "Python"] [str "sql"] 1%Q in
  let w := one_docx (str "cv.docx") (str "Python developer, SQL") in
  let now := MonthStart 2026 11 in
  let resume_dir := str "resumes" in
  ∃ ranked,
    process_resumes ascii_only self w now resume_dir = Return ranked
    ∧ ranked ≡ₚ omap (candidate_for ascii_only self w now resume_dir)
                  (listdir w resume_dir)
    ∧ (length ranked
       ≤ length (List.filter (supported ascii_only) (listdir w resume_dir)))%nat
    ∧ ∀ filename,
        filename ∈ listdir w resume_dir →
        analysed ascii_only w resume_dir filename →
        let text := extract_text ascii_only w (path_join resume_dir filename) in
        (∀ kw, kw ∈ mandatory self → (0 < occurrences ascii_only text kw)%nat) →
        ∃ a, analyze_resume ascii_only self now text = Return a
             ∧ candidate_of self filename a ∈ ranked.
Proof.
  eexists.
  assert (process_resumes ascii_only
            (init ascii_only [] [str "Python"] [str "sql"] 1%Q)
            (one_docx (str "cv.docx") (str "Python developer, SQL"))
            (MonthStart 2026 11) (str "resumes") = Return _) as Hp
    by (vm_compute; reflexivity).
  split; [exact Hp|].
  exact (every_qualified_resume_is_ranked ascii_only _ _ _ _ _ Hp).
Defined.

Lemma batch_aborts_iff_witness :
  let self := init ascii_only [] [str "python"] [] 0%Q in
  let w := one_docx (str "cv.docx") (str "python, 2 years experience") in
  process_resumes ascii_only self w (MonthStart 2026 11) (str "resumes")
  = Raise ZeroDivisionError.
Proof.
  apply (proj2 (batch_aborts_iff ascii_only
                  (init ascii_only [] [str "python"] [] 0%Q)
                  (one_docx (str "cv.docx") (str "python, 2 years experience"))
                  (MonthStart 2026 11) (str "resumes"))).
  split; [reflexivity|].
  exists (str "cv.docx"). split; [left|]. split.
  - split; [reflexivity|]. vm_compute. discriminate.
  - vm_compute. eexists. reflexivity.
Defined.

Lemma extract_text_agrees_without_failure_witness :
  let w := one_docx (str "cv.docx") (str "Python developer") in
  ¬ extraction_raises ascii_only w (str "cv.docx")
  ∧ gradio_extract_text ascii_only w (str "cv.docx")
    = extract_text ascii_only w (str "cv.docx").
Proof.
  assert (¬ extraction_raises ascii_only
              (one_docx (str "cv.docx") (str "Python developer"))
              (str "cv.docx")) as H
    by (vm_compute; intros [msg Hmsg]; discriminate).
  split; [exact H|].
  exact (extract_text_agrees_without_failure ascii_only _ _ H).
Defined.

Lemma extract_text_differs_on_failure_witness :
  let w := broken_pdf (str "cv.pdf") (str "bad file") in
  let filepath := str "/tmp/cv.pdf" in
  extraction_raises ascii_only w filepath
  ∧ py_strip ascii_only (extract_text ascii_only w filepath) = []
  ∧ py_strip ascii_only (gradio_extract_text ascii_only w filepath) ≠ []
  ∧ ∃ msg, gradio_extract_text ascii_only w filepath
           = str "Error processing " ++ filepath ++ str ": " ++ msg.
Proof.
  assert (extraction_raises ascii_only
            (broken_pdf (str "cv.pdf") (str "bad file")) (str "/tmp/cv.pdf"))
    as H by (vm_compute; exact I).
  split; [exact H|].
  exact (extract_text_differs_on_failure ascii_only _ _ H).
Defined.

Lemma gradio_unreadable_file_is_ranked_witness :
  let self := init ascii_only [] [str "processing"] [] 1%Q in
  let w := broken_pdf (str "cv.pdf") (str "bad file") in
  let now := MonthStart 2026 11 in
  let filepath := str "/tmp/cv.pdf" in
  ∃ ranked,
    gradio_process_resumes ascii_only self w now [filepath] = Return ranked
    ∧ ∃ a, analyze_resume ascii_only self now
             (gradio_extract_text ascii_only w filepath) = Return a
           ∧ candidate_of self (basename filepath) a ∈ ranked.
Proof.
  eexists.
  assert (gradio_process_resumes ascii_only
            (init ascii_only [] [str "processing"] [] 1%Q)
            (broken_pdf (str "cv.pdf") (str "bad file"))
            (MonthStart 2026 11) [str "/tmp/cv.pdf"] = Return _) as Hp
    by (vm_compute; reflexivity).
  split; [exact Hp|].
  refine (gradio_unreadable_file_is_ranked ascii_only _ _ _ _ _
            (str "/tmp/cv.pdf") Hp _ _ _ _).
  - left.
  - reflexivity.
  - vm_compute. exact I.
  - intros kw Hkw.
    change (kw ∈ [str "processing"]) in Hkw.
    apply list_elem_of_singleton in Hkw. subst kw.
    apply Nat.ltb_lt. vm_compute. reflexivity.
Defined.

Lemma batches_agree_without_failure_witness :
  let self := init ascii_only [] [str "python"] [] 1%Q in
  let w := one_docx (str "cv.docx") (str "Python developer") in
  let now := MonthStart 2026 11 in
  let resume_dir := str "resumes" in
  gradio_process_resumes ascii_only self w now
    (path_join resume_dir <$> listdir w resume_dir)
  = process_resumes ascii_only self w now resume_dir.
Proof.
  refine (batches_agree_without_failure ascii_only
            (init ascii_only [] [str "python"] [] 1%Q)
            (one_docx (str "cv.docx") (str "Python developer"))
            (MonthStart 2026 11) (str "resumes") _).
  intros filename Hin.
  change (filename ∈ [str "cv.docx"]) in Hin.
  apply list_elem_of_singleton in Hin. subst filename. split.
  - intros Hs. apply list_elem_of_In in Hs. vm_compute in Hs.
    intuition discriminate.
  - vm_compute. intros [msg Hmsg]. discriminate.
Defined.
